(** * WebRag ingestion task: [app/tasks/ingestion.py]

    A shallow embedding of the Celery task [process_url_ingestion] and of
    the closure [_work] it runs on a helper thread.  The task only
    orchestrates collaborators (status store, content processor, embedder,
    vector store, logger); those live in other modules, so they enter the
    development as an interface ([Collaborators]) over an abstract outside
    world.  The task itself is written as a program tree whose nodes are
    the calls the Python code makes, in the order it makes them. *)

From Stdlib Require Import List String Ascii ZArith NArith Bool Lia Arith PeanoNat.
From Stdlib Require Import Floats.PrimFloat.
Import ListNotations.
Local Open Scope string_scope.
Local Open Scope list_scope.
Local Open Scope Z_scope.

(** ** Python values that cross the interface *)

(** An exception instance: its class name and [str(exc)].  Only subclasses
    of [Exception] are modelled, which is what [except Exception] catches. *)
Record exn : Type := mk_exn { exn_class : string; exn_str : string }.

Definition TimeoutError (msg : string) : exn := mk_exn "TimeoutError" msg.
Definition ValueError (msg : string) : exn := mk_exn "ValueError" msg.

(** Outcome of evaluating a Python expression: a value or a raised exception. *)
Inductive res (A : Type) : Type :=
| Val (a : A)
| Exc (e : exn).
Arguments Val {A} a.
Arguments Exc {A} e.

Definition uuid : Type := N.          (* uuid.UUID: a 128-bit integer *)
Definition datetime : Type := Z.      (* datetime.utcnow() *)
Definition float : Type := PrimFloat.float.
Definition vector : Type := list float.

(** Keyword arguments of [update_job_status_sync]. *)
Record StatusFields : Type := mk_fields {
  started_at : option datetime;
  completed_at : option datetime;
  chunk_count : option Z;
  error_message : option string;
  error_traceback : option string
}.

Definition no_fields : StatusFields := mk_fields None None None None None.

(** The dict returned by [_work]. *)
Record Result : Type := mk_result {
  result_job_id : string;
  result_status : string;
  result_chunks_added : Z
}.

(** [app.config.settings], as far as the task reads it. *)
Record Settings : Type := mk_settings {
  CHUNK_SIZE : Z;
  CHUNK_OVERLAP : Z;
  GOOGLE_API_KEY : string;
  EMBEDDING_MODEL : string;
  EMBEDDING_DIMENSIONS : Z;
  QDRANT_HOST : string;
  QDRANT_PORT : Z;
  QDRANT_COLLECTION : string
}.

(** The bound Celery task [self]: [self.request.retries] may be missing
    ([hasattr]/[getattr] with default 0) and [self.max_retries] is set by
    the decorator. *)
Record Request : Type := mk_request { request_retries : option nat }.
Record Task : Type := mk_task { task_request : option Request; max_retries : nat }.

(** The task as the decorator declares it: [max_retries=3]. *)
Definition celery_task (req : option Request) : Task := mk_task req 3.

(** Values recorded in log records and in the call history. *)
Inductive value : Type :=
| VNone
| VStr (s : string)
| VInt (z : Z)
| VStrs (l : list string)
| VVectors (l : list vector).

(** ** Calls made by the task *)

(** One constructor per call site kind of the source, with the arguments
    the source passes. *)
Inductive Cmd : Type :=
| logger_info (msg : string) (extra : list (string * value))
| logger_error (msg : string) (extra : list (string * value))
| utcnow
| update_job_status_sync (id : uuid) (status : string) (fields : StatusFields)
| fetch_url_content_sync (u : string)
| clean_html (html : string)
| chunk_text (text : string) (chunk_size chunk_overlap : Z)
| GeminiEmbeddings (api_key model : string) (output_dimensionality : Z)
| embed_documents (batch : list string)
| QdrantStore (host : string) (port : Z) (collection_name : string)
| create_collection_if_not_exists
| add_documents (chunks : list string) (vectors : list vector)
                (metadata : list (string * string)) (job_id : string).

(** What each call returns when it returns. *)
Definition Resp (c : Cmd) : Type :=
  match c with
  | logger_info _ _ | logger_error _ _ => unit
  | utcnow => datetime
  | update_job_status_sync _ _ _ => unit
  | fetch_url_content_sync _ => string
  | clean_html _ => string
  | chunk_text _ _ _ => list string
  | GeminiEmbeddings _ _ _ => unit
  | embed_documents _ => list vector
  | QdrantStore _ _ _ => unit
  | create_collection_if_not_exists => unit
  | add_documents _ _ _ _ => Z
  end.

Definition to_value (c : Cmd) : Resp c -> value :=
  match c return Resp c -> value with
  | logger_info _ _ | logger_error _ _ => fun _ => VNone
  | utcnow => fun t => VInt t
  | update_job_status_sync _ _ _ => fun _ => VNone
  | fetch_url_content_sync _ => fun s => VStr s
  | clean_html _ => fun s => VStr s
  | chunk_text _ _ _ => fun l => VStrs l
  | GeminiEmbeddings _ _ _ => fun _ => VNone
  | embed_documents _ => fun l => VVectors l
  | QdrantStore _ _ _ => fun _ => VNone
  | create_collection_if_not_exists => fun _ => VNone
  | add_documents _ _ _ _ => fun n => VInt n
  end.

Definition res_value (c : Cmd) (r : res (Resp c)) : res value :=
  match r with
  | Val a => Val (to_value c a)
  | Exc e => Exc e
  end.

(** ** Programs *)

(** A program is the tree of calls it may make; the continuation of a
    call receives either the returned value or the raised exception. *)
Inductive Prog (A : Type) : Type :=
| Ret (a : A)
| Throw (e : exn)
| Do (c : Cmd) (k : res (Resp c) -> Prog A).
Arguments Ret {A} a.
Arguments Throw {A} e.
Arguments Do {A} c k.

Fixpoint bind {A B : Type} (p : Prog A) (f : A -> Prog B) : Prog B :=
  match p with
  | Ret a => f a
  | Throw e => Throw e
  | Do c k => Do c (fun r => bind (k r) f)
  end.

(** [try: p  except Exception as e: h e] *)
Fixpoint try_except {A : Type} (p : Prog A) (h : exn -> Prog A) : Prog A :=
  match p with
  | Ret a => Ret a
  | Throw e => h e
  | Do c k => Do c (fun r => try_except (k r) h)
  end.

Definition of_res {A : Type} (r : res A) : Prog A :=
  match r with
  | Val a => Ret a
  | Exc e => Throw e
  end.

Definition call (c : Cmd) : Prog (Resp c) := Do c of_res.

Notation "x <- p ;; q" := (bind p (fun x => q))
  (at level 61, p at next level, right associativity).
Notation "p ;; q" := (bind p (fun _ => q))
  (at level 61, right associativity).

(** ** Python list helpers used by the batching loop *)

Fixpoint range_fuel (fuel start stop step : nat) : list nat :=
  match fuel with
  | O => []
  | S fuel' =>
      if (start <? stop)%nat
      then start :: range_fuel fuel' (start + step) stop step
      else []
  end.

(** [range(start, stop, step)] for a positive step; at most [stop]
    iterations are ever needed. *)
Definition range (start stop step : nat) : list nat :=
  range_fuel stop start stop step.

(** [l[i:j]] for [0 <= i <= j]; Python clips both ends to the list. *)
Definition slice {A : Type} (l : list A) (i j : nat) : list A :=
  firstn (j - i) (skipn i l).

Definition len {A : Type} (l : list A) : Z := Z.of_nat (List.length l).
Definition str_len (s : string) : Z := Z.of_nat (String.length s).

(** ** The task *)

(** What the dispatch layer sees when the task function exits: a returned
    dict, the [Retry] signal raised by [self.retry(exc=..., countdown=...)],
    or the original exception re-raised by the bare [raise]. *)
Inductive Outcome : Type :=
| Returned (r : Result)
| RetryScheduled (exc : exn) (countdown : Z)
| Failed (exc : exn).

(** Names the module imports that are pure from the task's point of view:
    the [UUID] constructor, [traceback.format_exc] and [settings]. *)
Record Env : Type := mk_env {
  UUID : string -> res uuid;
  format_exc : exn -> string;
  settings : Settings
}.

Definition batch_size : nat := 100.

Section Task.
Variable env : Env.

(** The [for i in range(0, len(chunks), batch_size)] loop, with the
    accumulator [vectors]. *)
Fixpoint embed_batches (chunks : list string) (starts : list nat)
    (vectors : list vector) : Prog (list vector) :=
  match starts with
  | [] => Ret vectors
  | i :: rest =>
      let batch := slice chunks i (i + batch_size) in
      batch_vecs <- call (embed_documents batch) ;;
      embed_batches chunks rest (vectors ++ batch_vecs)
  end.

Definition _work (jid u : string) : Prog Result :=
  call (logger_info "Converting job_id to UUID" [("job_id", VStr jid)]) ;;
  jid_uuid <- of_res (UUID env jid) ;;
  call (logger_info "Marking job as processing" [("job_id", VStr jid)]) ;;
  t0 <- call utcnow ;;
  call (update_job_status_sync jid_uuid "processing"
          (mk_fields (Some t0) None None None None)) ;;
  call (logger_info "Fetching URL content" [("url", VStr u)]) ;;
  html <- call (fetch_url_content_sync u) ;;
  call (logger_info "Cleaning HTML" [("content_length", VInt (str_len html))]) ;;
  text <- call (clean_html html) ;;
  call (logger_info "Chunking text" [("text_length", VInt (str_len text))]) ;;
  chunks <- call (chunk_text text (CHUNK_SIZE (settings env))
                                  (CHUNK_OVERLAP (settings env))) ;;
  call (logger_info "Generating embeddings" [("num_chunks", VInt (len chunks))]) ;;
  call (GeminiEmbeddings (GOOGLE_API_KEY (settings env))
                         (EMBEDDING_MODEL (settings env))
                         (EMBEDDING_DIMENSIONS (settings env))) ;;
  vectors <- embed_batches chunks (range 0 (List.length chunks) batch_size) [] ;;
  call (logger_info "Storing in Qdrant" [("num_vectors", VInt (len vectors))]) ;;
  call (QdrantStore (QDRANT_HOST (settings env)) (QDRANT_PORT (settings env))
                    (QDRANT_COLLECTION (settings env))) ;;
  call create_collection_if_not_exists ;;
  let metadata := [("source_url", u)] in
  added <- call (add_documents chunks vectors metadata jid) ;;
  call (logger_info "Marking job as completed" [("chunks_added", VInt added)]) ;;
  t1 <- call utcnow ;;
  call (update_job_status_sync jid_uuid "completed"
          (mk_fields None (Some t1) (Some (len chunks)) None None)) ;;
  Ret (mk_result jid "completed" added).

(** The thread target: [result]/[exception] are the two ways the thread
    can end. *)
Definition run_work (job_id url : string) : Prog Result := _work job_id url.

(** [getattr(self.request, "retries", 0) if hasattr(self, "request") else 0] *)
Definition retries_of (self : Task) : nat :=
  match task_request self with
  | Some req =>
      match request_retries req with
      | Some n => n
      | None => O
      end
  | None => O
  end.

Definition countdown_of (retries : nat) : Z := 60 * 2 ^ Z.of_nat retries.

(** The retry-or-give-up decision at the end of the handler, as a
    function of the task and the caught exception only. *)
Definition decide (self : Task) (exc : exn) : Outcome :=
  if (retries_of self <? max_retries self)%nat
  then RetryScheduled exc (countdown_of (retries_of self))
  else Failed exc.

(** The body of [except Exception as exc:]. *)
Definition on_exception (self : Task) (job_id : string) (exc : exn)
    : Prog Outcome :=
  let tb := format_exc env exc in
  call (logger_error "Ingestion task failed"
          [("job_id", VStr job_id); ("error", VStr (exn_str exc));
           ("traceback", VStr tb)]) ;;
  try_except
    (id <- of_res (UUID env job_id) ;;
     call (update_job_status_sync id "failed"
             (mk_fields None None None (Some (exn_str exc)) (Some tb))))
    (fun e2 =>
       call (logger_error "Failed to persist job failure"
               [("job_id", VStr job_id); ("error", VStr (exn_str e2))])) ;;
  let retries := retries_of self in
  if (retries <? max_retries self)%nat then
    let countdown := countdown_of retries in
    call (logger_info "Retrying ingestion task"
            [("job_id", VStr job_id); ("countdown", VInt countdown);
             ("retries", VInt (Z.of_nat retries))]) ;;
    Ret (RetryScheduled exc countdown)
  else
    Ret (Failed exc).

Definition timeout_error : exn := TimeoutError "Ingestion task timed out".

(** The main thread after [thread.join(timeout=300)].  [joined] is what
    it finds: [None] when [thread.is_alive()], otherwise the thread's
    [exception] or [result]. *)
Definition after_join (self : Task) (job_id : string)
    (joined : option (res Result)) : Prog Outcome :=
  try_except
    (match joined with
     | None => Throw timeout_error
     | Some (Exc exception) => Throw exception
     | Some (Val result) =>
         call (logger_info "Ingestion task completed" [("job_id", VStr job_id)]) ;;
         Ret (Returned result)
     end)
    (on_exception self job_id).

(** The exception bound by [except Exception as exc], if the handler runs. *)
Definition caught_of (joined : option (res Result)) : option exn :=
  match joined with
  | None => Some timeout_error
  | Some (Exc exception) => Some exception
  | Some (Val _) => None
  end.

Definition starting (job_id url : string) : Prog unit :=
  call (logger_info "Starting ingestion task"
          [("job_id", VStr job_id); ("url", VStr url)]).
End Task.

(** ** The outside world and the two threads *)

(** Modelled from the spec: the job record that [get_job_by_id_sync] reads
    back ([app/database.py] is not part of the sources at hand); section 3
    of the specification lists these fields. *)
Record JobRecord : Type := mk_job {
  job_status : string;
  job_started_at : option datetime;
  job_completed_at : option datetime;
  job_chunk_count : option Z;
  job_error_message : option string;
  job_error_traceback : option string
}.

(** Behaviour of the imported collaborators over a world [W] (database,
    network, vector store, clock).  Each call either returns or raises,
    and may change the world. *)
Record Collaborators (W : Type) : Type := mk_collab {
  clock : W -> datetime;
  db_update_job_status : uuid -> string -> StatusFields -> W -> res unit * W;
  get_job_by_id_sync : uuid -> W -> option JobRecord;
  cp_fetch_url_content : string -> W -> res string * W;
  cp_clean_html : string -> W -> res string * W;
  cp_chunk_text : string -> Z -> Z -> W -> res (list string) * W;
  gemini_init : string -> string -> Z -> W -> res unit * W;
  gemini_embed_documents : list string -> W -> res (list vector) * W;
  qdrant_init : string -> Z -> string -> W -> res unit * W;
  qdrant_create_collection : W -> res unit * W;
  qdrant_add_documents :
    list string -> list vector -> list (string * string) -> string ->
    W -> res Z * W
}.
Arguments clock {W} _ _.
Arguments db_update_job_status {W} _ _ _ _ _.
Arguments get_job_by_id_sync {W} _ _ _.
Arguments cp_fetch_url_content {W} _ _ _.
Arguments cp_clean_html {W} _ _ _.
Arguments cp_chunk_text {W} _ _ _ _ _.
Arguments gemini_init {W} _ _ _ _ _.
Arguments gemini_embed_documents {W} _ _ _.
Arguments qdrant_init {W} _ _ _ _ _.
Arguments qdrant_create_collection {W} _ _.
Arguments qdrant_add_documents {W} _ _ _ _ _ _.

Inductive Thread : Type := Main | Worker.

(** One executed call: who made it, what it returned or raised, and the
    world it left behind. *)
Record event (W : Type) : Type := mk_event {
  ev_thread : Thread;
  ev_cmd : Cmd;
  ev_resp : res value;
  ev_after : W
}.
Arguments mk_event {W} _ _ _ _.
Arguments ev_thread {W} _.
Arguments ev_cmd {W} _.
Arguments ev_resp {W} _.
Arguments ev_after {W} _.

(** How the wait in [thread.join(timeout=300)] ends.  [InTime]: the worker
    finishes first.  [Overrun k order]: the deadline passes when the worker
    has made [k] calls; if it still has a call to make it is alive, and
    from then on the two threads run side by side, taking turns as [order]
    says (then the main thread, then the worker, to their ends). *)
Inductive Schedule : Type :=
| InTime
| Overrun (k : nat) (order : list Thread).

Section Runtime.
Context {W : Type}.
Variable C : Collaborators W.

(** Logging and the clock read never raise and leave the world alone. *)
Definition perform (c : Cmd) : W -> res (Resp c) * W :=
  match c return W -> res (Resp c) * W with
  | logger_info _ _ => fun w => (Val tt, w)
  | logger_error _ _ => fun w => (Val tt, w)
  | utcnow => fun w => (Val (clock C w), w)
  | update_job_status_sync id st f => db_update_job_status C id st f
  | fetch_url_content_sync u => cp_fetch_url_content C u
  | clean_html html => cp_clean_html C html
  | chunk_text text sz ov => cp_chunk_text C text sz ov
  | GeminiEmbeddings k m d => gemini_init C k m d
  | embed_documents batch => gemini_embed_documents C batch
  | QdrantStore h p n => qdrant_init C h p n
  | create_collection_if_not_exists => qdrant_create_collection C
  | add_documents cs vs md j => qdrant_add_documents C cs vs md j
  end.

(** Run a thread's program to its end. *)
Fixpoint exec {A : Type} (th : Thread) (p : Prog A) (w : W)
    : res A * W * list (event W) :=
  match p with
  | Ret a => (Val a, w, [])
  | Throw e => (Exc e, w, [])
  | Do c k =>
      let '(r, w1) := perform c w in
      let '(out, w2, evs) := exec th (k r) w1 in
      (out, w2, mk_event th c (res_value c r) w1 :: evs)
  end.

(** Let a thread make its next call, if it has one. *)
Definition step1 {A : Type} (th : Thread) (p : Prog A) (w : W)
    : Prog A * W * list (event W) :=
  match p with
  | Do c k =>
      let '(r, w1) := perform c w in
      (k r, w1, [mk_event th c (res_value c r) w1])
  | _ => (p, w, [])
  end.

Fixpoint run_steps {A : Type} (n : nat) (th : Thread) (p : Prog A) (w : W)
    : Prog A * W * list (event W) :=
  match n with
  | O => (p, w, [])
  | S n' =>
      let '(p1, w1, evs1) := step1 th p w in
      let '(p2, w2, evs2) := run_steps n' th p1 w1 in
      (p2, w2, evs1 ++ evs2)
  end.

(** The main thread and the abandoned worker running side by side. *)
Fixpoint interleave {A B : Type} (order : list Thread)
    (pm : Prog A) (pw : Prog B) (w : W)
    : res A * res B * W * list (event W) :=
  match order with
  | [] =>
      let '(om, w1, evs1) := exec Main pm w in
      let '(ow, w2, evs2) := exec Worker pw w1 in
      (om, ow, w2, evs1 ++ evs2)
  | Main :: order' =>
      let '(pm1, w1, evs1) := step1 Main pm w in
      let '(om, ow, w2, evs2) := interleave order' pm1 pw w1 in
      (om, ow, w2, evs1 ++ evs2)
  | Worker :: order' =>
      let '(pw1, w1, evs1) := step1 Worker pw w in
      let '(om, ow, w2, evs2) := interleave order' pm pw1 w1 in
      (om, ow, w2, evs1 ++ evs2)
  end.

(** [thread.is_alive()]: the thread still has a call to make. *)
Definition is_alive {A : Type} (p : Prog A) : bool :=
  match p with
  | Do _ _ => true
  | _ => false
  end.

Definition finished {A : Type} (p : Prog A) : option (res A) :=
  match p with
  | Ret a => Some (Val a)
  | Throw e => Some (Exc e)
  | Do _ _ => None
  end.

(** Everything observable about one invocation of the task. *)
Record Run : Type := mk_run {
  joined : option (res Result);   (* what the main thread found after join *)
  outcome : Outcome;              (* how the task function exited *)
  worker_end : res Result;        (* how the worker thread ended, in the end *)
  world : W;
  trace : list (event W);
  deadline_at : nat               (* calls made by the time the join returned *)
}.

Definition exit_of (o : res Outcome) : Outcome :=
  match o with
  | Val o' => o'
  | Exc e => Failed e
  end.

Variable env : Env.

Definition process_url_ingestion (self : Task) (job_id url : string)
    (sch : Schedule) (w : W) : Run :=
  let '(_, w0, t0) := exec Main (starting job_id url) w in
  (* thread.start(); thread.join(timeout=300) *)
  let '(pw, w1, t1) :=
    match sch with
    | InTime =>
        let '(r, w1, t1) := exec Worker (run_work env job_id url) w0 in
        (of_res r, w1, t1)
    | Overrun k _ => run_steps k Worker (run_work env job_id url) w0
    end in
  let order := match sch with InTime => [] | Overrun _ o => o end in
  let j := finished pw in
  let '(om, ow, w2, t2) := interleave order (after_join env self job_id j) pw w1 in
  mk_run j (exit_of om) ow w2 (t0 ++ t1 ++ t2) (List.length (t0 ++ t1)).
End Runtime.

(** ** Reasoning about runs *)

Definition thread_eqb (a b : Thread) : bool :=
  match a, b with
  | Main, Main | Worker, Worker => true
  | _, _ => false
  end.

(** The calls of one thread, in order. *)
Definition view {W : Type} (th : Thread) (tr : list (event W)) : list (event W) :=
  filter (fun e => thread_eqb (ev_thread e) th) tr.

Section RunFacts.
Context {W : Type}.
Variable C : Collaborators W.

(** [steps th p evs out]: thread [th] running [p] makes exactly the calls
    [evs] and ends with [out]; every answer is one the collaborators
    gave in some world (other threads may act in between). *)
Fixpoint steps {A : Type} (th : Thread) (p : Prog A)
    (evs : list (event W)) (out : res A) : Prop :=
  match p with
  | Ret a => evs = [] /\ out = Val a
  | Throw e => evs = [] /\ out = Exc e
  | Do c k =>
      exists (w0 : W) (r : res (Resp c)) (w1 : W) (evs' : list (event W)),
        perform C c w0 = (r, w1) /\
        evs = mk_event th c (res_value c r) w1 :: evs' /\
        steps th (k r) evs' out
  end.

(** [history w evs w']: the calls [evs], made one after the other from
    world [w], lead to world [w']. *)
Fixpoint history (w : W) (evs : list (event W)) (w' : W) : Prop :=
  match evs with
  | [] => w' = w
  | ev :: rest =>
      (exists r : res (Resp (ev_cmd ev)),
          perform C (ev_cmd ev) w = (r, ev_after ev) /\
          ev_resp ev = res_value (ev_cmd ev) r) /\
      history (ev_after ev) rest w'
  end.

Lemma history_app w evs1 w1 evs2 w2 :
  history w evs1 w1 -> history w1 evs2 w2 -> history w (evs1 ++ evs2) w2.
Proof.
  revert w; induction evs1 as [|ev evs1 IH]; intros w H1 H2; simpl in *.
  - subst; assumption.
  - destruct H1 as [Hev H1]; split; [exact Hev | eauto].
Qed.

Lemma history_app_inv w evs1 evs2 w2 :
  history w (evs1 ++ evs2) w2 ->
  exists w1, history w evs1 w1 /\ history w1 evs2 w2.
Proof.
  revert w; induction evs1 as [|ev evs1 IH]; intros w H; simpl in *.
  - exists w; split; [reflexivity | assumption].
  - destruct H as [Hev H]. destruct (IH _ H) as (w1 & Ha & Hb).
    exists w1; repeat split; assumption.
Qed.

Lemma view_app th (l1 l2 : list (event W)) :
  view th (l1 ++ l2) = view th l1 ++ view th l2.
Proof. apply filter_app. Qed.

Definition all_of (th : Thread) (evs : list (event W)) : Prop :=
  Forall (fun e => ev_thread e = th) evs.

Lemma view_same th evs : all_of th evs -> view th evs = evs.
Proof.
  induction 1 as [|e l He _ IH]; simpl; [reflexivity|].
  rewrite He. destruct th; simpl; fold (view Main l); fold (view Worker l);
    rewrite IH; reflexivity.
Qed.

Lemma view_other th th' evs :
  th <> th' -> all_of th' evs -> view th evs = [].
Proof.
  intros Hne; induction 1 as [|e l He _ IH]; simpl; [reflexivity|].
  rewrite He. destruct th, th'; simpl; try congruence; exact IH.
Qed.

Lemma exec_sound {A : Type} th (p : Prog A) w out w' evs :
  exec C th p w = (out, w', evs) ->
  steps th p evs out /\ history w evs w' /\ all_of th evs.
Proof.
  revert w out w' evs; induction p as [a|e|c k IH]; intros w out w' evs H;
    simpl in H.
  - inversion H; subst; simpl.
    split; [auto | split; [reflexivity | constructor]].
  - inversion H; subst; simpl.
    split; [auto | split; [reflexivity | constructor]].
  - destruct (perform C c w) as [r w1] eqn:Hp.
    destruct (exec C th (k r) w1) as [[out2 w2] evs2] eqn:He.
    inversion H; subst; clear H.
    destruct (IH _ _ _ _ _ He) as (Hs & Hh & Ha).
    split; [|split].
    + simpl. exists w, r, w1, evs2; auto.
    + simpl. split; [exists r; auto | exact Hh].
    + constructor; [reflexivity | exact Ha].
Qed.

Lemma step1_sound {A : Type} th (p p1 : Prog A) w w1 evs :
  step1 C th p w = (p1, w1, evs) ->
  history w evs w1 /\ all_of th evs /\
  forall evs2 out, steps th p1 evs2 out -> steps th p (evs ++ evs2) out.
Proof.
  destruct p as [a|e|c k]; simpl; intros H.
  - inversion H; subst; simpl.
    split; [reflexivity | split; [constructor | auto]].
  - inversion H; subst; simpl.
    split; [reflexivity | split; [constructor | auto]].
  - destruct (perform C c w) as [r w'] eqn:Hp.
    inversion H; subst; clear H. split; [|split].
    + simpl. split; [exists r; auto | reflexivity].
    + repeat constructor.
    + intros evs2 out Hs. simpl. exists w, r, w1, evs2; auto.
Qed.

Lemma all_of_app th (l1 l2 : list (event W)) :
  all_of th l1 -> all_of th l2 -> all_of th (l1 ++ l2).
Proof. intros; apply Forall_app; auto. Qed.

Lemma run_steps_sound {A : Type} n th (p p' : Prog A) w w' evs :
  run_steps C n th p w = (p', w', evs) ->
  history w evs w' /\ all_of th evs /\
  forall evs2 out, steps th p' evs2 out -> steps th p (evs ++ evs2) out.
Proof.
  revert p w p' w' evs; induction n as [|n IH]; intros p w p' w' evs H;
    simpl in H.
  - inversion H; subst; simpl.
    split; [reflexivity | split; [constructor | auto]].
  - destruct (step1 C th p w) as [[p1 w1] evs1] eqn:H1.
    destruct (run_steps C n th p1 w1) as [[p2 w2] evs2] eqn:H2.
    inversion H; subst; clear H.
    destruct (step1_sound _ _ _ _ _ _ H1) as (Hh1 & Ha1 & Hk1).
    destruct (IH _ _ _ _ _ H2) as (Hh2 & Ha2 & Hk2).
    split; [|split].
    + eapply history_app; eauto.
    + apply all_of_app; assumption.
    + intros evs3 out Hs. rewrite <- app_assoc. apply Hk1, Hk2, Hs.
Qed.

Lemma interleave_sound {A B : Type} order (pm : Prog A) (pw : Prog B)
    w om ow w' evs :
  interleave C order pm pw w = (om, ow, w', evs) ->
  history w evs w' /\
  steps Main pm (view Main evs) om /\
  steps Worker pw (view Worker evs) ow.
Proof.
  revert pm pw w om ow w' evs; induction order as [|th order IH];
    intros pm pw w om ow w' evs H; simpl in H.
  - destruct (exec C Main pm w) as [[om1 w1] evs1] eqn:H1.
    destruct (exec C Worker pw w1) as [[ow2 w2] evs2] eqn:H2.
    inversion H; subst; clear H.
    destruct (exec_sound _ _ _ _ _ _ H1) as (Hs1 & Hh1 & Ha1).
    destruct (exec_sound _ _ _ _ _ _ H2) as (Hs2 & Hh2 & Ha2).
    rewrite !view_app.
    rewrite (view_same _ _ Ha1), (view_same _ _ Ha2).
    rewrite (view_other Main Worker evs2), (view_other Worker Main evs1);
      try assumption; try discriminate.
    rewrite app_nil_r; simpl. repeat split; try assumption.
    eapply history_app; eauto.
  - destruct th.
    + destruct (step1 C Main pm w) as [[pm1 w1] evs1] eqn:H1.
      destruct (interleave C order pm1 pw w1) as [[[om2 ow2] w2] evs2] eqn:H2.
      inversion H; subst; clear H.
      destruct (step1_sound _ _ _ _ _ _ H1) as (Hh1 & Ha1 & Hk1).
      destruct (IH _ _ _ _ _ _ _ H2) as (Hh2 & Hm2 & Hw2).
      rewrite !view_app, (view_same _ _ Ha1).
      rewrite (view_other Worker Main evs1); try assumption; try discriminate.
      simpl. repeat split; auto. eapply history_app; eauto.
    + destruct (step1 C Worker pw w) as [[pw1 w1] evs1] eqn:H1.
      destruct (interleave C order pm pw1 w1) as [[[om2 ow2] w2] evs2] eqn:H2.
      inversion H; subst; clear H.
      destruct (step1_sound _ _ _ _ _ _ H1) as (Hh1 & Ha1 & Hk1).
      destruct (IH _ _ _ _ _ _ _ H2) as (Hh2 & Hm2 & Hw2).
      rewrite !view_app, (view_same _ _ Ha1).
      rewrite (view_other Main Worker evs1); try assumption; try discriminate.
      simpl. repeat split; auto. eapply history_app; eauto.
Qed.
End RunFacts.

Section TaskFacts.
Context {W : Type}.
Variable C : Collaborators W.
Variable env : Env.

Lemma steps_finished {A : Type} th (p : Prog A) (r : res A) :
  finished p = Some r -> steps C th p [] r.
Proof.
  destruct p; simpl; intros H; inversion H; subst; auto.
Qed.

Lemma interleave_finished {A B : Type} order (pm : Prog A) (pw : Prog B)
    (r : res B) w om ow w' evs :
  finished pw = Some r ->
  interleave C order pm pw w = (om, ow, w', evs) ->
  all_of Main evs /\ ow = r.
Proof.
  intros Hf. revert pm w om ow w' evs.
  induction order as [|th order IH]; intros pm w om ow w' evs H; simpl in H.
  - destruct (exec C Main pm w) as [[om1 w1] evs1] eqn:H1.
    destruct (exec_sound C _ _ _ _ _ _ H1) as (_ & _ & Ha1).
    destruct pw; simpl in *; try discriminate;
      inversion Hf; subst; inversion H; subst;
      rewrite app_nil_r; auto.
  - destruct th.
    + destruct (step1 C Main pm w) as [[pm1 w1] evs1] eqn:H1.
      destruct (interleave C order pm1 pw w1) as [[[om2 ow2] w2] evs2] eqn:H2.
      inversion H; subst; clear H.
      destruct (step1_sound C _ _ _ _ _ _ H1) as (_ & Ha1 & _).
      destruct (IH _ _ _ _ _ _ H2) as (Ha2 & Ho).
      split; [apply all_of_app; assumption | assumption].
    + assert (Hs : step1 C Worker pw w = (pw, w, [])).
      { destruct pw; simpl in *; try discriminate; reflexivity. }
      rewrite Hs in H.
      destruct (interleave C order pm pw w) as [[[om2 ow2] w2] evs2] eqn:H2.
      inversion H; subst; clear H. simpl. eapply IH; eauto.
Qed.

(** Each thread's share of the trace is a run of that thread's program,
    and the trace as a whole leads from the first world to the last. *)
Lemma run_sound self job_id url sch w :
  let run := process_url_ingestion C env self job_id url sch w in
  history C w (trace run) (world run) /\
  steps C Worker (run_work env job_id url) (view Worker (trace run))
        (worker_end run) /\
  exists om,
    steps C Main (starting job_id url ;; after_join env self job_id (joined run))
          (view Main (trace run)) om /\
    outcome run = exit_of om.
Proof.
  unfold process_url_ingestion.
  destruct (exec C Main (starting job_id url) w) as [[o0 w0] t0] eqn:H0.
  unfold starting in H0. simpl in H0. inversion H0; subst; clear H0.
  set (first := match sch with
                | InTime =>
                    let '(r, w1, t1) := exec C Worker (run_work env job_id url) w0 in
                    (of_res r, w1, t1)
                | Overrun k _ => run_steps C k Worker (run_work env job_id url) w0
                end).
  assert (Hfirst : forall pw w1 t1, first = (pw, w1, t1) ->
            history C w0 t1 w1 /\ all_of Worker t1 /\
            forall evs2 out, steps C Worker pw evs2 out ->
              steps C Worker (run_work env job_id url) (t1 ++ evs2) out).
  { intros pw w1 t1 Hf. subst first. destruct sch as [|k order].
    - destruct (exec C Worker (run_work env job_id url) w0) as [[r w1'] t1'] eqn:He.
      inversion Hf; subst; clear Hf.
      destruct (exec_sound C _ _ _ _ _ _ He) as (Hs & Hh & Ha).
      repeat split; try assumption.
      intros evs2 out Hs2. destruct r; simpl in Hs2; destruct Hs2; subst;
        rewrite app_nil_r; assumption.
    - apply (run_steps_sound C _ _ _ _ _ _ _ Hf). }
  destruct first as [[pw w1] t1] eqn:Hf.
  destruct (Hfirst _ _ _ eq_refl) as (Hh1 & Ha1 & Hk1).
  destruct (interleave C _ (after_join env self job_id (finished pw)) pw w1)
    as [[[om ow] w2] t2] eqn:Hi.
  destruct (interleave_sound C _ _ _ _ _ _ _ _ Hi) as (Hh2 & Hm2 & Hw2).
  simpl.
  fold (view Main (t1 ++ t2)); fold (view Worker (t1 ++ t2)).
  rewrite !view_app.
  rewrite (view_same _ _ Ha1), (view_other Main Worker t1);
    try assumption; try discriminate.
  simpl. split; [|split].
  - split; [exists (Val tt); split; reflexivity|].
    eapply history_app; eassumption.
  - apply Hk1. exact Hw2.
  - exists om. split; [|reflexivity].
    unfold starting. simpl.
    exists w0, (Val tt), w0, (view Main t2). simpl. auto.
Qed.

(** When the join finds the thread finished, the worker's calls all come
    before the main thread's next call. *)
Lemma run_joined self job_id url sch w r :
  let run := process_url_ingestion C env self job_id url sch w in
  joined run = Some r ->
  exists e0 t1 t2 w1 om,
    trace run = e0 :: t1 ++ t2 /\
    ev_thread e0 = Main /\
    steps C Worker (run_work env job_id url) t1 r /\
    all_of Worker t1 /\
    steps C Main (after_join env self job_id (Some r)) t2 om /\
    all_of Main t2 /\
    history C w1 t2 (world run) /\
    history C w (e0 :: t1) w1 /\
    outcome run = exit_of om /\ worker_end run = r.
Proof.
  unfold process_url_ingestion.
  destruct (exec C Main (starting job_id url) w) as [[o0 w0] t0] eqn:H0.
  unfold starting in H0. simpl in H0. inversion H0; subst; clear H0.
  set (first := match sch with
                | InTime =>
                    let '(r, w1, t1) := exec C Worker (run_work env job_id url) w0 in
                    (of_res r, w1, t1)
                | Overrun k _ => run_steps C k Worker (run_work env job_id url) w0
                end).
  assert (Hfirst : forall pw w1 t1, first = (pw, w1, t1) ->
            history C w0 t1 w1 /\ all_of Worker t1 /\
            forall evs2 out, steps C Worker pw evs2 out ->
              steps C Worker (run_work env job_id url) (t1 ++ evs2) out).
  { intros pw w1 t1 Hf. subst first. destruct sch as [|k order].
    - destruct (exec C Worker (run_work env job_id url) w0) as [[r' w1'] t1'] eqn:He.
      inversion Hf; subst; clear Hf.
      destruct (exec_sound C _ _ _ _ _ _ He) as (Hs & Hh & Ha).
      repeat split; try assumption.
      intros evs2 out Hs2. destruct r'; simpl in Hs2; destruct Hs2; subst;
        rewrite app_nil_r; assumption.
    - apply (run_steps_sound C _ _ _ _ _ _ _ Hf). }
  destruct first as [[pw w1] t1] eqn:Hf.
  destruct (Hfirst _ _ _ eq_refl) as (Hh1 & Ha1 & Hk1). clear Hfirst Hf.
  destruct (interleave C _ (after_join env self job_id (finished pw)) pw w1)
    as [[[om ow] w2] t2] eqn:Hi.
  simpl. intros Hj.
  destruct (interleave_finished _ _ _ _ _ _ _ _ _ Hj Hi) as (Ha2 & ->).
  destruct (interleave_sound C _ _ _ _ _ _ _ _ Hi) as (Hh2 & Hm2 & _).
  rewrite (view_same _ _ Ha2) in Hm2. rewrite Hj in Hm2.
  eexists _, t1, t2, w1, om.
  split; [reflexivity|]. split; [reflexivity|].
  split. { specialize (Hk1 [] r (steps_finished _ _ _ Hj)).
           rewrite app_nil_r in Hk1. exact Hk1. }
  split; [assumption|]. split; [assumption|]. split; [assumption|].
  split; [assumption|].
  split; [|split; reflexivity].
  simpl. split; [exists (Val tt); split; reflexivity | assumption].
Qed.
End TaskFacts.
(** ** The calls of the exception handler *)

Ltac next_call H :=
  let w0 := fresh "w" in
  let r := fresh "r" in
  let w1 := fresh "w" in
  let evs := fresh "evs" in
  let Hp := fresh "Hp" in
  let He := fresh "He" in
  cbn [steps bind call of_res try_except] in H;
  destruct H as (w0 & r & w1 & evs & Hp & He & H);
  cbn [perform] in Hp.

Ltac quiet_call H :=
  next_call H;
  match goal with
  | Hp : (Val tt, ?w) = (?r, ?w1) |- _ => inversion Hp; subst r w1; clear Hp
  | Hp : (Val ?t, ?w) = (?r, ?w1) |- _ => inversion Hp; subst r w1; clear Hp
  end;
  cbn [steps bind call of_res try_except res_value to_value] in *.

Section HandlerFacts.
Context {W : Type}.
Variable C : Collaborators W.
Variable env : Env.

Definition log_task_failed (job_id : string) (exc : exn) : Cmd :=
  logger_error "Ingestion task failed"
    [("job_id", VStr job_id); ("error", VStr (exn_str exc));
     ("traceback", VStr (format_exc env exc))].

Definition failed_write (id : uuid) (exc : exn) : Cmd :=
  update_job_status_sync id "failed"
    (mk_fields None None None (Some (exn_str exc)) (Some (format_exc env exc))).

Definition log_persist_failed (job_id : string) (e2 : exn) : Cmd :=
  logger_error "Failed to persist job failure"
    [("job_id", VStr job_id); ("error", VStr (exn_str e2))].

Definition log_retrying (job_id : string) (self : Task) : Cmd :=
  logger_info "Retrying ingestion task"
    [("job_id", VStr job_id); ("countdown", VInt (countdown_of (retries_of self)));
     ("retries", VInt (Z.of_nat (retries_of self)))].

(** The audit part of the handler: the attempt to persist "failed". *)
Definition audit_events (th : Thread) (job_id : string) (exc : exn)
    (audit : list (event W)) : Prop :=
  match UUID env job_id with
  | Exc e2 =>
      exists w, audit = [mk_event th (log_persist_failed job_id e2) (Val VNone) w]
  | Val id =>
      exists w0 r w1,
        db_update_job_status C id "failed"
          (mk_fields None None None (Some (exn_str exc))
                     (Some (format_exc env exc))) w0 = (r, w1) /\
        match r with
        | Val _ => audit = [mk_event th (failed_write id exc) (Val VNone) w1]
        | Exc e2 =>
            exists w2,
              audit = [mk_event th (failed_write id exc) (Exc e2) w1;
                       mk_event th (log_persist_failed job_id e2) (Val VNone) w2]
        end
  end.

Definition retry_events (th : Thread) (job_id : string) (self : Task)
    (rest : list (event W)) : Prop :=
  if (retries_of self <? max_retries self)%nat
  then exists w, rest = [mk_event th (log_retrying job_id self) (Val VNone) w]
  else rest = [].

Definition handler_events (th : Thread) (self : Task) (job_id : string)
    (exc : exn) (evs : list (event W)) : Prop :=
  exists w1 audit rest,
    evs = mk_event th (log_task_failed job_id exc) (Val VNone) w1 :: audit ++ rest /\
    audit_events th job_id exc audit /\
    retry_events th job_id self rest.

Lemma retry_part th self job_id exc evs om :
  steps C th
    (if (retries_of self <? max_retries self)%nat
     then call (log_retrying job_id self) ;;
          Ret (RetryScheduled exc (countdown_of (retries_of self)))
     else Ret (Failed exc)) evs om ->
  om = Val (decide self exc) /\ retry_events th job_id self evs.
Proof.
  unfold decide, retry_events.
  destruct (retries_of self <? max_retries self)%nat; intros H.
  - unfold log_retrying in H. quiet_call H. destruct H as [-> ->].
    split; [reflexivity|]. subst. eexists; reflexivity.
  - simpl in H. destruct H as [-> ->]. split; reflexivity.
Qed.

Lemma on_exception_steps th self job_id exc evs om :
  steps C th (on_exception env self job_id exc) evs om ->
  om = Val (decide self exc) /\ handler_events th self job_id exc evs.
Proof.
  unfold on_exception, handler_events, audit_events. intros H.
  quiet_call H.
  destruct (UUID env job_id) as [id|e2] eqn:HU.
  - next_call H. destruct r as [[]|e2].
    + cbn [steps bind call of_res try_except] in H.
      apply retry_part in H. destruct H as [-> Hr]. subst.
      split; [reflexivity|].
      eexists _, [_], _. simpl.
      split; [reflexivity|]. split; [|eassumption].
      eexists _, (Val tt), _. split; [eassumption | reflexivity].
    + quiet_call H. apply retry_part in H. destruct H as [-> Hr]. subst.
      split; [reflexivity|].
      eexists _, [_; _], _. simpl.
      split; [reflexivity|]. split; [|eassumption].
      eexists _, (Exc e2), _. split; [eassumption|].
      eexists; reflexivity.
  - quiet_call H. apply retry_part in H. destruct H as [-> Hr]. subst.
    split; [reflexivity|].
    eexists _, [_], _. simpl.
    split; [reflexivity|]. split; [|eassumption].
    eexists; reflexivity.
Qed.

(** What the main thread does after the join, case by case. *)
Lemma after_join_steps th self job_id j evs om :
  steps C th (after_join env self job_id j) evs om ->
  match caught_of j with
  | Some exc => om = Val (decide self exc) /\ handler_events th self job_id exc evs
  | None =>
      exists result w,
        j = Some (Val result) /\ om = Val (Returned result) /\
        evs = [mk_event th (logger_info "Ingestion task completed"
                              [("job_id", VStr job_id)]) (Val VNone) w]
  end.
Proof.
  unfold after_join. destruct j as [[result|exception]|]; simpl caught_of.
  - intros H. quiet_call H. destruct H as [-> ->]. subst.
    eexists _, _; repeat split.
  - cbn [try_except]. apply on_exception_steps.
  - cbn [try_except]. apply on_exception_steps.
Qed.
End HandlerFacts.

(** ** The calls of the batching loop *)

Section LoopFacts.
Context {W : Type}.
Variable C : Collaborators W.
Variable env : Env.

Lemma steps_bind {A B : Type} th (p : Prog A) (f : A -> Prog B) evs out :
  steps C th (bind p f) evs out ->
  exists evs1 r,
    steps C th p evs1 r /\
    match r with
    | Val a => exists evs2, evs = evs1 ++ evs2 /\ steps C th (f a) evs2 out
    | Exc e => evs = evs1 /\ out = Exc e
    end.
Proof.
  revert evs; induction p as [a|e|c k IH]; intros evs H; simpl in H.
  - exists [], (Val a). simpl. split; [auto|]. exists evs; auto.
  - destruct H as [-> ->]. exists [], (Exc e). simpl. auto.
  - destruct H as (w0 & r & w1 & evs' & Hp & -> & H).
    destruct (IH _ _ H) as (evs1 & r1 & H1 & H2).
    exists (mk_event th c (res_value c r) w1 :: evs1), r1. split.
    + simpl. exists w0, r, w1, evs1. auto.
    + destruct r1 as [a|e].
      * destruct H2 as (evs2 & -> & H2). exists evs2. auto.
      * destruct H2 as [-> ->]. auto.
Qed.

(** The calls of a loop that ran through: one [embed_documents] call per
    start index, each on the slice at that index, each returning. *)
Fixpoint embed_events (th : Thread) (chunks : list string)
    (starts : list nat) (resps : list (list vector))
    (evs : list (event W)) : Prop :=
  match starts, resps, evs with
  | [], [], [] => True
  | i :: starts', r :: resps', ev :: evs' =>
      (exists w0,
          gemini_embed_documents C (slice chunks i (i + batch_size)) w0
            = (Val r, ev_after ev) /\
          ev = mk_event th (embed_documents (slice chunks i (i + batch_size)))
                        (Val (VVectors r)) (ev_after ev)) /\
      embed_events th chunks starts' resps' evs'
  | _, _, _ => False
  end.

Definition is_embed (ev : event W) : Prop :=
  exists batch, ev_cmd ev = embed_documents batch.

Lemma embed_events_are_embed th chunks starts resps evs :
  embed_events th chunks starts resps evs -> Forall is_embed evs.
Proof.
  revert resps evs; induction starts as [|i starts IH];
    intros [|r resps] [|ev evs]; simpl; try tauto.
  - intros _. constructor.
  - intros [(w0 & _ & Hev) Hrest]. constructor; [|eauto].
    rewrite Hev. eexists; reflexivity.
Qed.

Lemma embed_events_length th chunks starts resps evs :
  embed_events th chunks starts resps evs ->
  List.length evs = List.length starts /\ List.length resps = List.length starts.
Proof.
  revert resps evs; induction starts as [|i starts IH];
    intros [|r resps] [|ev evs]; simpl; try tauto.
  intros [_ Hrest]. destruct (IH _ _ Hrest). split; congruence.
Qed.

Lemma embed_batches_steps th chunks starts acc evs out :
  steps C th (embed_batches chunks starts acc) evs out ->
  match out with
  | Val vectors =>
      exists resps,
        embed_events th chunks starts resps evs /\
        vectors = acc ++ List.concat resps
  | Exc e =>
      exists pre ev, evs = pre ++ [ev] /\ Forall is_embed evs /\
        ev_resp ev = Exc e /\
        Forall (fun e' => exists v, ev_resp e' = Val v) pre
  end.
Proof.
  revert acc evs; induction starts as [|i starts IH]; intros acc evs H.
  - simpl in H. destruct H as [-> ->]. exists []. simpl.
    rewrite app_nil_r. auto.
  - cbn [embed_batches] in H. next_call H. destruct r as [vs|e].
    + cbn [steps bind call of_res] in H. apply IH in H.
      destruct out as [vectors|e].
      * destruct H as (resps & Hev & ->). exists (vs :: resps). subst.
        split; [|simpl; rewrite <- app_assoc; reflexivity].
        simpl. split; [|assumption]. exists w. auto.
      * destruct H as (pre & ev & -> & Hall & Hr & Hpre). subst.
        eexists (_ :: pre), ev. split; [reflexivity|].
        split; [constructor; [eexists; reflexivity | assumption]|].
        split; [assumption|]. constructor; [eexists; reflexivity | assumption].
    + cbn [steps bind call of_res] in H. destruct H as [-> ->]. subst.
      eexists [], _. split; [reflexivity|].
      split; [constructor; [eexists; reflexivity | constructor]|].
      split; [reflexivity | constructor].
Qed.
End LoopFacts.

Ltac end_thread H :=
  cbn [steps bind call of_res] in H; destruct H as [? ?]; subst.

Ltac work_call H :=
  next_call H;
  lazymatch goal with
  | Hp : (Val _, _) = (_, _) |- _ =>
      inversion Hp; subst; clear Hp;
      cbn [steps bind call of_res res_value to_value] in *
  | Hp : _ = (?r, _) |- _ =>
      destruct r as [?a|?e];
      [ cbn [steps bind call of_res res_value to_value] in *
      | end_thread H; cbn [res_value to_value] in * ]
  end.

Ltac uuid_case H :=
  match type of H with
  | context [of_res (UUID ?e ?j)] =>
      let HU := fresh "HU" in
      destruct (UUID e j) eqn:HU;
      [ cbn [steps bind call of_res] in H | end_thread H ]
  end.

Ltac loop_case H :=
  match type of H with
  | steps _ _ (bind (embed_batches _ _ _) _) _ _ =>
      let evs1 := fresh "loop" in
      let r := fresh "r" in
      let Hloop := fresh "Hloop" in
      apply steps_bind in H; destruct H as (evs1 & r & Hloop & H);
      apply embed_batches_steps in Hloop;
      destruct r as [?vectors|?e];
      [ let evs2 := fresh "evs" in
        let He := fresh "He" in
        let resps := fresh "resps" in
        let Hev := fresh "Hev" in
        let Hv := fresh "Hv" in
        destruct H as (evs2 & He & H);
        destruct Hloop as (resps & Hev & Hv); simpl in Hv
      | let pre := fresh "pre" in
        let ev := fresh "ev" in
        let Hall := fresh "Hall" in
        let Hr := fresh "Hr" in
        let Hpre := fresh "Hpre" in
        destruct H as [? ?];
        destruct Hloop as (pre & ev & ? & Hall & Hr & Hpre) ];
      subst
  end.

Ltac explore H :=
  repeat first [ work_call H | uuid_case H | loop_case H ];
  try (cbn [steps] in H; destruct H as [? ?]; subst).

(** ** The calls of the worker thread *)

Ltac find_raised :=
  repeat first
    [ apply Exists_cons_hd; first [reflexivity | assumption]
    | apply Exists_cons_tl
    | apply Exists_app; right ].

Ltac find_event :=
  repeat first
    [ left; reflexivity
    | right
    | apply in_or_app; right; simpl ].

Section WorkerFacts.
Context {W : Type}.
Variable C : Collaborators W.
Variable env : Env.

Definition returned (ev : event W) : Prop := exists v, ev_resp ev = Val v.

(** Call [c] by thread [th] is in [evs] and returned [v]. *)
Definition gave (th : Thread) (c : Cmd) (v : value) (evs : list (event W)) : Prop :=
  exists w, In (mk_event th c (Val v) w) evs.

Definition completed_write (id : uuid) (t : datetime) (chunks : list string) : Cmd :=
  update_job_status_sync id "completed"
    (mk_fields None (Some t) (Some (len chunks)) None None).

Lemma embed_events_returned th chunks starts resps evs :
  embed_events C th chunks starts resps evs -> Forall returned evs.
Proof.
  revert resps evs; induction starts as [|i starts IH];
    intros [|r resps] [|ev evs]; simpl; try tauto.
  - intros _. constructor.
  - intros [(w0 & _ & Hev) Hrest]. constructor; [|eauto].
    rewrite Hev. eexists; reflexivity.
Qed.

(** The worker raises nothing of its own: when it ends with an
    exception, the job id did not parse or one of its calls raised it. *)
Lemma work_failure th jid u evs e :
  steps C th (_work env jid u) evs (Exc e) ->
  UUID env jid = Exc e \/ Exists (fun ev => ev_resp ev = Exc e) evs.
Proof.
  unfold _work. intros H. explore H;
    repeat match goal with
           | Heq : Exc _ = Exc _ |- _ => inversion Heq; subst; clear Heq
           end;
    first [ discriminate | left; congruence | right; find_raised ].
Qed.

(** A worker that returns made every call of the pipeline, each of which
    returned, and wrote "completed" last. *)
Lemma work_success th jid u evs result :
  steps C th (_work env jid u) evs (Val result) ->
  exists id html text chunks vectors added t1 pre w0 w1,
    UUID env jid = Val id /\
    evs = pre ++ [mk_event th (completed_write id t1 chunks) (Val VNone) w1] /\
    db_update_job_status C id "completed"
      (mk_fields None (Some t1) (Some (len chunks)) None None) w0 = (Val tt, w1) /\
    gave th (fetch_url_content_sync u) (VStr html) pre /\
    gave th (clean_html html) (VStr text) pre /\
    gave th (chunk_text text (CHUNK_SIZE (settings env))
               (CHUNK_OVERLAP (settings env))) (VStrs chunks) pre /\
    gave th (add_documents chunks vectors [("source_url", u)] jid)
         (VInt added) pre /\
    Forall returned evs /\
    result = mk_result jid "completed" added.
Proof.
  unfold _work. intros H. explore H; try discriminate.
  match goal with Heq : Val _ = Val _ |- _ => inversion Heq; subst; clear Heq end.
  match goal with Hp : db_update_job_status _ _ "completed" _ _ = (Val ?a, _) |- _ =>
    destruct a end.
  eexists _, _, _, _, _, _, _,
    (_ :: _ :: _ :: _ :: _ :: _ :: _ :: _ :: _ :: _ :: _ :: _ :: loop
       ++ [_; _; _; _; _; _]), _, _.
  split; [reflexivity|].
  split; [simpl; rewrite <- app_assoc; reflexivity|].
  split; [eassumption|].
  split; [eexists; find_event|].
  split; [eexists; find_event|].
  split; [eexists; find_event|].
  split; [eexists; find_event|].
  split; [|reflexivity].
  repeat (constructor; [eexists; reflexivity|]).
  apply Forall_app; split; [eapply embed_events_returned; eassumption|].
  repeat (constructor; [eexists; reflexivity|]). constructor.
Qed.

(** A job id that does not parse ends the worker after its first log line. *)
Lemma work_malformed th jid u e evs out :
  UUID env jid = Exc e ->
  steps C th (_work env jid u) evs out ->
  out = Exc e /\
  exists w, evs = [mk_event th (logger_info "Converting job_id to UUID"
                                  [("job_id", VStr jid)]) (Val VNone) w].
Proof.
  unfold _work. intros HU H. work_call H. rewrite HU in H. end_thread H.
  split; [reflexivity | eexists; reflexivity].
Qed.

(** The pipeline stages proper: everything but logging, the clock and the
    status writes. *)
Definition is_stage (c : Cmd) : bool :=
  match c with
  | fetch_url_content_sync _ | clean_html _ | chunk_text _ _ _
  | GeminiEmbeddings _ _ _ | embed_documents _ | QdrantStore _ _ _
  | create_collection_if_not_exists | add_documents _ _ _ _ => true
  | _ => false
  end.

Definition is_processing_write (c : Cmd) : Prop :=
  exists id f, c = update_job_status_sync id "processing" f.

Lemma is_embed_not_processing (ev : event W) :
  is_embed ev -> ~ is_processing_write (ev_cmd ev).
Proof. intros [b Hb] (id & f & Hc). congruence. Qed.

(** If the "processing" write raises, that is where the worker ends: with
    that exception, and before any pipeline stage. *)
Lemma work_processing_raises th jid u evs out :
  steps C th (_work env jid u) evs out ->
  Forall (fun ev => is_processing_write (ev_cmd ev) ->
                    forall e, ev_resp ev = Exc e ->
                    out = Exc e /\
                    Forall (fun e' => is_stage (ev_cmd e') = false) evs) evs.
Proof.
  unfold _work. intros H. explore H.
  all: repeat first
    [ apply Forall_nil
    | apply Forall_cons;
      [ cbn [ev_cmd ev_resp];
        let Hc := fresh "Hc" in
        let Hx := fresh "Hx" in
        intros (? & ? & Hc) ? Hx;
        first [ discriminate Hc | discriminate Hx
              | inversion Hx; subst; split; [reflexivity | repeat constructor] ]
      | ]
    | match goal with
      | Hall : Forall is_embed ?l |- Forall _ ?l =>
          eapply Forall_impl; [| exact Hall];
          intros ev' Hemb Hproc; exfalso;
          eapply is_embed_not_processing; eassumption
      end
    | apply Forall_app; split;
      [ eapply Forall_impl; [| eapply embed_events_are_embed; eassumption ];
        intros ev' Hemb Hproc; exfalso;
        eapply is_embed_not_processing; eassumption
      | ] ].
Qed.

(** [upsert_guarded seen evs]: every [add_documents] call in [evs] comes
    after a [create_collection_if_not_exists] call that returned ([seen]
    says whether one came before [evs]). *)
Fixpoint upsert_guarded (seen : bool) (evs : list (event W)) : Prop :=
  match evs with
  | [] => True
  | ev :: rest =>
      match ev_cmd ev with
      | add_documents _ _ _ _ => seen = true /\ upsert_guarded seen rest
      | create_collection_if_not_exists =>
          upsert_guarded (match ev_resp ev with Val _ => true | Exc _ => seen end) rest
      | _ => upsert_guarded seen rest
      end
  end.

Definition is_upsert (ev : event W) : Prop :=
  exists chunks vectors metadata job_id,
    ev_cmd ev = add_documents chunks vectors metadata job_id.

Definition ensured (ev : event W) : Prop :=
  ev_cmd ev = create_collection_if_not_exists /\ returned ev.

Lemma guarded_before seen evs :
  upsert_guarded seen evs ->
  forall pre ev post,
    evs = pre ++ ev :: post -> is_upsert ev ->
    seen = true \/ exists e, In e pre /\ ensured e.
Proof.
  revert seen; induction evs as [|e0 evs IH]; intros seen Hg pre ev post He Hup.
  - destruct pre; discriminate.
  - destruct pre as [|p pre]; simpl in He; inversion He; subst; clear He.
    + destruct Hup as (a & b & c & d & Hc). simpl in Hg. rewrite Hc in Hg.
      left. tauto.
    + assert (Hrest : forall s', upsert_guarded s' (pre ++ ev :: post) ->
                s' = true \/ exists e, In e (p :: pre) /\ ensured e).
      { intros s' Hs'. destruct (IH _ Hs' _ _ _ eq_refl Hup) as [Ht|(e & Hin & He)];
          [left; assumption | right; exists e; split; [right|]; assumption]. }
      simpl in Hg.
      destruct (ev_cmd p) eqn:Hc; try (destruct (Hrest _ Hg); tauto).
      * destruct (ev_resp p) eqn:Hr.
        -- right. exists p. split; [left; reflexivity|].
           split; [assumption | eexists; eassumption].
        -- destruct (Hrest _ Hg); tauto.
      * destruct Hg as [_ Hg]. destruct (Hrest _ Hg); tauto.
Qed.

Lemma guarded_skip seen l l' :
  Forall (fun e => is_stage (ev_cmd e) = false \/ is_embed e) l ->
  upsert_guarded seen l' -> upsert_guarded seen (l ++ l').
Proof.
  induction 1 as [|e l He _ IH]; simpl; [auto|]. intros Hg.
  destruct He as [He|[b He]].
  - destruct (ev_cmd e); simpl in He; try discriminate; auto.
  - rewrite He. auto.
Qed.

Lemma guarded_embed seen l : Forall is_embed l -> upsert_guarded seen l.
Proof.
  intros H. rewrite <- (app_nil_r l). apply guarded_skip; [|exact I].
  eapply Forall_impl; [|exact H]. auto.
Qed.

(** The worker never upserts before the collection is ensured. *)
Lemma work_guarded th jid u evs out :
  steps C th (_work env jid u) evs out -> upsert_guarded false evs.
Proof.
  unfold _work. intros H. explore H.
  all: cbn [upsert_guarded ev_cmd ev_resp].
  all: try exact I.
  all: first
    [ apply guarded_embed; assumption
    | apply guarded_skip;
      [ eapply Forall_impl; [| eapply embed_events_are_embed; eassumption ]; auto
      | cbn [upsert_guarded ev_cmd ev_resp]; auto ] ].
Qed.
End WorkerFacts.

(** ** Batching arithmetic *)

Section Batching.
Context {A : Type}.

Lemma skipn_skipn_add (i j : nat) (l : list A) :
  skipn i (skipn j l) = skipn (j + i) l.
Proof.
  revert l; induction j as [|j IH]; intros l; simpl; [reflexivity|].
  destruct l; [destruct i; reflexivity | apply IH].
Qed.

(** The slices taken at the indices of [range] tile the list. *)
Lemma slices_tile (l : list A) (step : nat) :
  (0 < step)%nat ->
  forall fuel start,
    (List.length l - start <= fuel)%nat ->
    List.concat (map (fun i => slice l i (i + step))
                     (range_fuel fuel start (List.length l) step))
    = skipn start l.
Proof.
  intros Hstep. induction fuel as [|fuel IH]; intros start Hfuel.
  - simpl. symmetry. apply skipn_all2. lia.
  - simpl. destruct (start <? List.length l)%nat eqn:Hlt.
    + apply Nat.ltb_lt in Hlt. simpl. rewrite IH by lia.
      unfold slice. replace (start + step - start)%nat with step by lia.
      rewrite <- (skipn_skipn_add step start l).
      apply firstn_skipn.
    + apply Nat.ltb_ge in Hlt. simpl. symmetry. apply skipn_all2. exact Hlt.
Qed.

Lemma slice_length (l : list A) (i j : nat) :
  (List.length (slice l i j) <= j - i)%nat.
Proof. unfold slice. apply firstn_le_length. Qed.
End Batching.

(** [len(range(start, n, step))] is the ceiling of [(n - start) / step]. *)
Lemma range_fuel_length (step : nat) :
  (0 < step)%nat ->
  forall fuel start stop,
    (stop - start <= fuel)%nat ->
    List.length (range_fuel fuel start stop step)
    = ((stop - start + (step - 1)) / step)%nat.
Proof.
  intros Hstep. induction fuel as [|fuel IH]; intros start stop Hfuel.
  - simpl. replace (stop - start)%nat with O by lia. simpl.
    symmetry. apply Nat.div_small. lia.
  - simpl. destruct (start <? stop)%nat eqn:Hlt.
    + apply Nat.ltb_lt in Hlt. simpl. rewrite IH by lia.
      destruct (le_lt_dec (stop - start) step) as [Hle|Hgt].
      * replace (stop - (start + step))%nat with O by lia. simpl.
        rewrite (Nat.div_small (step - 1) step) by lia.
        apply (Nat.div_unique _ _ 1 (stop - start - 1)); lia.
      * replace (stop - start + (step - 1))%nat
          with (stop - (start + step) + (step - 1) + 1 * step)%nat by lia.
        rewrite Nat.div_add by lia. lia.
    + apply Nat.ltb_ge in Hlt. simpl.
      replace (stop - start)%nat with O by lia. simpl.
      symmetry. apply Nat.div_small. lia.
Qed.

Lemma range_length (n : nat) :
  List.length (range 0 n batch_size) = ((n + 99) / 100)%nat.
Proof.
  unfold range. rewrite (range_fuel_length batch_size) by (unfold batch_size; lia).
  unfold batch_size. rewrite Nat.sub_0_r. reflexivity.
Qed.

Lemma range_tiles {A : Type} (l : list A) :
  List.concat (map (fun i => slice l i (i + batch_size))
                   (range 0 (List.length l) batch_size)) = l.
Proof.
  unfold range. rewrite (slices_tile l batch_size); [reflexivity| |];
    unfold batch_size; lia.
Qed.

Lemma Forall2_concat {A B : Type} (R : A -> B -> Prop) (ls : list (list A))
    (ms : list (list B)) :
  Forall2 (Forall2 R) ls ms -> Forall2 R (List.concat ls) (List.concat ms).
Proof.
  induction 1 as [|l m ls ms Hlm _ IH]; simpl; [constructor|].
  apply Forall2_app; assumption.
Qed.

(** ** The two threads in one trace *)

Section TraceFacts.
Context {W : Type}.
Variable C : Collaborators W.
Variable env : Env.

Lemma in_view (ev : event W) tr : In ev tr -> In ev (view (ev_thread ev) tr).
Proof.
  intros H. apply filter_In. split; [assumption|].
  destruct (ev_thread ev); reflexivity.
Qed.

Lemma view_in th (ev : event W) tr :
  In ev (view th tr) -> In ev tr /\ ev_thread ev = th.
Proof.
  intros H. apply filter_In in H. destruct H as [Hin Ht]. split; [assumption|].
  destruct (ev_thread ev), th; simpl in Ht; congruence.
Qed.

Lemma Forall_threads (P : event W -> Prop) tr :
  Forall P (view Main tr) -> Forall P (view Worker tr) -> Forall P tr.
Proof.
  intros Hm Hw. apply Forall_forall. intros ev Hin.
  apply in_view in Hin. destruct (ev_thread ev).
  - eapply Forall_forall in Hm; eassumption.
  - eapply Forall_forall in Hw; eassumption.
Qed.

Lemma guarded_threads seen (tr : list (event W)) :
  Forall (fun e => is_stage (ev_cmd e) = false) (view Main tr) ->
  upsert_guarded seen (view Worker tr) -> upsert_guarded seen tr.
Proof.
  revert seen; induction tr as [|ev tr IH]; intros seen Hm Hw; [exact I|].
  unfold view in Hm, Hw. simpl in Hm, Hw.
  destruct (ev_thread ev) eqn:Ht; simpl in Hm, Hw.
  - inversion Hm as [|? ? Hns Hm']; subst.
    simpl. destruct (ev_cmd ev); simpl in Hns; try discriminate; apply IH; assumption.
  - simpl in *. destruct (ev_cmd ev); try (apply IH; assumption).
    destruct Hw as [Hs Hw]. split; [assumption | apply IH; assumption].
Qed.

(** The calls the main thread makes: log lines and the "failed" write. *)
Definition main_call (c : Cmd) : Prop :=
  (exists m x, c = logger_info m x) \/
  (exists m x, c = logger_error m x) \/
  (exists id f, c = update_job_status_sync id "failed" f).

Lemma main_call_not_stage c : main_call c -> is_stage c = false.
Proof.
  intros [(m & x & ->)|[(m & x & ->)|(id & f & ->)]]; reflexivity.
Qed.

Lemma handler_calls th self job_id exc evs :
  handler_events C env th self job_id exc evs ->
  Forall (fun e => main_call (ev_cmd e)) evs.
Proof.
  assert (Hi : forall m x, main_call (logger_info m x))
    by (intros; left; eexists _, _; reflexivity).
  assert (He : forall m x, main_call (logger_error m x))
    by (intros; right; left; eexists _, _; reflexivity).
  assert (Hu : forall id f, main_call (update_job_status_sync id "failed" f))
    by (intros; right; right; eexists _, _; reflexivity).
  intros (w1 & audit & rest & -> & Ha & Hr).
  apply Forall_cons; [apply He|].
  apply Forall_app. split.
  - unfold audit_events in Ha. destruct (UUID env job_id) as [id|e2].
    + destruct Ha as (w0 & r & w2 & _ & Ha). destruct r as [a|e2].
      * subst. apply Forall_cons; [apply Hu | apply Forall_nil].
      * destruct Ha as (w3 & ->).
        apply Forall_cons; [apply Hu|].
        apply Forall_cons; [apply He | apply Forall_nil].
    + destruct Ha as (w & ->).
      apply Forall_cons; [apply He | apply Forall_nil].
  - unfold retry_events in Hr.
    destruct (retries_of self <? max_retries self)%nat.
    + destruct Hr as (w & ->).
      apply Forall_cons; [apply Hi | apply Forall_nil].
    + subst. apply Forall_nil.
Qed.

(** What the main thread contributes to a run. *)
Lemma run_main self job_id url sch w :
  let run := process_url_ingestion C env self job_id url sch w in
  exists w0 rest,
    view Main (trace run)
    = mk_event Main (logger_info "Starting ingestion task"
                       [("job_id", VStr job_id); ("url", VStr url)])
               (Val VNone) w0 :: rest /\
    match caught_of (joined run) with
    | Some exc =>
        outcome run = decide self exc /\
        handler_events C env Main self job_id exc rest
    | None =>
        exists result w1,
          joined run = Some (Val result) /\
          outcome run = Returned result /\
          rest = [mk_event Main (logger_info "Ingestion task completed"
                                   [("job_id", VStr job_id)]) (Val VNone) w1]
    end.
Proof.
  intros run.
  destruct (run_sound C env self job_id url sch w) as (_ & _ & om & Hm & Ho).
  fold run in Hm, Ho. unfold starting in Hm. quiet_call Hm.
  eexists _, _. split; [eassumption|].
  apply after_join_steps in Hm.
  destruct (caught_of (joined run)) as [exc|].
  - destruct Hm as [-> Hh]. split; [exact Ho | exact Hh].
  - destruct Hm as (result & w1 & Hj & -> & ->).
    exists result, w1. auto.
Qed.

Lemma run_main_calls self job_id url sch w :
  Forall (fun e => main_call (ev_cmd e))
         (view Main (trace (process_url_ingestion C env self job_id url sch w))).
Proof.
  destruct (run_main self job_id url sch w) as (w0 & rest & -> & H).
  apply Forall_cons; [left; eexists _, _; reflexivity|].
  destruct (caught_of (joined _)) as [exc|].
  - destruct H as [_ H]. eapply handler_calls; eassumption.
  - destruct H as (result & w1 & _ & _ & ->).
    apply Forall_cons; [left; eexists _, _; reflexivity | apply Forall_nil].
Qed.

(** When the join finds the thread finished, what it finds is how the
    thread ended. *)
Lemma joined_worker_end self job_id url sch w r :
  joined (process_url_ingestion C env self job_id url sch w) = Some r ->
  worker_end (process_url_ingestion C env self job_id url sch w) = r.
Proof.
  intros Hj. destruct (run_joined C env self job_id url sch w r Hj)
    as (e0 & t1 & t2 & w1 & om & _ & _ & _ & _ & _ & _ & _ & _ & _ & Hw).
  exact Hw.
Qed.
End TraceFacts.

(** ** An abandoned worker *)

Section AbandonedFacts.
Context {W : Type}.
Variable C : Collaborators W.
Variable env : Env.

Lemma alive_steps {A : Type} th (p : Prog A) evs out :
  finished p = None -> steps C th p evs out -> evs <> [].
Proof.
  destruct p as [a|e|c k]; simpl; try discriminate.
  intros _ (w0 & r & w1 & evs' & _ & -> & _). discriminate.
Qed.

(** When the join times out, the worker still has calls to make, and the
    rest of the trace contains all of them. *)
Lemma run_abandoned self job_id url sch w :
  let run := process_url_ingestion C env self job_id url sch w in
  joined run = None ->
  exists e0 t1 t2,
    trace run = e0 :: t1 ++ t2 /\
    deadline_at run = S (List.length t1) /\
    ev_thread e0 = Main /\
    all_of Worker t1 /\
    view Worker t2 <> [] /\
    steps C Worker (run_work env job_id url) (t1 ++ view Worker t2) (worker_end run).
Proof.
  unfold process_url_ingestion.
  destruct (exec C Main (starting job_id url) w) as [[o0 w0] t0] eqn:H0.
  unfold starting in H0. simpl in H0. inversion H0; subst; clear H0.
  destruct sch as [|k order].
  - destruct (exec C Worker (run_work env job_id url) w0) as [[r w1] t1] eqn:He.
    destruct (interleave C [] (after_join env self job_id (finished (of_res r)))
                (of_res r) w1) as [[[om ow] w2] t2] eqn:Hi.
    simpl. destruct r; discriminate.
  - destruct (run_steps C k Worker (run_work env job_id url) w0)
      as [[pw w1] t1] eqn:Hr.
    destruct (interleave C order (after_join env self job_id (finished pw)) pw w1)
      as [[[om ow] w2] t2] eqn:Hi.
    simpl. intros Hj.
    destruct (run_steps_sound C _ _ _ _ _ _ _ Hr) as (_ & Ha1 & Hk1).
    destruct (interleave_sound C _ _ _ _ _ _ _ _ Hi) as (_ & _ & Hw2).
    eexists _, t1, t2.
    split; [reflexivity|]. split; [reflexivity|]. split; [reflexivity|].
    split; [assumption|].
    split; [eapply alive_steps; eassumption|].
    apply Hk1. exact Hw2.
Qed.
End AbandonedFacts.

(** ** A laboratory world

    Concrete stand-ins for the collaborators, used to run the task on
    explicit inputs: an in-memory job table and point list, a network that
    serves the URL text itself as the page, a chunker that splits at
    spaces, and an embedder that returns one vector per chunk.  Faults can
    be switched on one by one. *)

Module Lab.

Record world : Type := mk_world {
  jobs : list (uuid * JobRecord);
  points : list (string * vector * string);
  collection : bool;
  time : Z
}.

Record faults : Type := mk_faults {
  processing_write_raises : bool;
  failed_write_raises : bool;
  embedder_drops_one : bool
}.

Definition no_faults : faults := mk_faults false false false.

Fixpoint lookup (id : uuid) (l : list (uuid * JobRecord)) : option JobRecord :=
  match l with
  | [] => None
  | (k, v) :: rest => if N.eqb k id then Some v else lookup id rest
  end.

Definition or_else {A : Type} (a b : option A) : option A :=
  match a with
  | Some _ => a
  | None => b
  end.

Definition blank : JobRecord := mk_job "queued" None None None None None.

Definition apply_fields (st : string) (f : StatusFields) (old : JobRecord) : JobRecord :=
  mk_job st
    (or_else (started_at f) (job_started_at old))
    (or_else (completed_at f) (job_completed_at old))
    (or_else (chunk_count f) (job_chunk_count old))
    (or_else (error_message f) (job_error_message old))
    (or_else (error_traceback f) (job_error_traceback old)).

Definition db_down : exn := mk_exn "OperationalError" "database is unavailable".

Definition update (fl : faults) (id : uuid) (st : string) (f : StatusFields)
    (w : world) : res unit * world :=
  if (String.eqb st "processing" && processing_write_raises fl)
     || (String.eqb st "failed" && failed_write_raises fl)
  then (Exc db_down, w)
  else
    let old := match lookup id (jobs w) with Some r => r | None => blank end in
    (Val tt, mk_world ((id, apply_fields st f old) :: jobs w)
                      (points w) (collection w) (time w + 1)).

(** Split at spaces. *)
Fixpoint words (s : string) (cur : string) : list string :=
  match s with
  | EmptyString => if String.eqb cur "" then [] else [cur]
  | String c rest =>
      if Ascii.eqb c " "%char
      then (if String.eqb cur "" then words rest "" else cur :: words rest "")
      else words rest (cur ++ String c "")%string
  end.

Definition embed (fl : faults) (batch : list string) : list vector :=
  let vs := map (fun _ : string => [PrimFloat.one]) batch in
  if embedder_drops_one fl then tl vs else vs.

Definition tick (w : world) : world :=
  mk_world (jobs w) (points w) (collection w) (time w + 1).

Definition upsert (chunks : list string) (vectors : list vector)
    (job_id : string) (w : world) : res Z * world :=
  let added := map (fun cv => (fst cv, snd cv, job_id)) (combine chunks vectors) in
  (Val (len added),
   mk_world (jobs w) (points w ++ added) (collection w) (time w + 1)).

Definition collab (fl : faults) : Collaborators world :=
  mk_collab world
    time
    (update fl)
    (fun id w => lookup id (jobs w))
    (fun u w => (Val u, tick w))
    (fun html w => (Val html, w))
    (fun text _ _ w => (Val (words text ""), w))
    (fun _ _ _ w => (Val tt, w))
    (fun batch w => (Val (embed fl batch), tick w))
    (fun _ _ _ w => (Val tt, w))
    (fun w => (Val tt, mk_world (jobs w) (points w) true (time w)))
    (fun chunks vectors _ job_id w => upsert chunks vectors job_id w).

Definition is_hex (c : Ascii.ascii) : bool :=
  let n := Ascii.nat_of_ascii c in
  ((48 <=? n) && (n <=? 57) || (97 <=? n) && (n <=? 102)
   || (65 <=? n) && (n <=? 70))%nat.

Definition hex_val (c : Ascii.ascii) : N :=
  let n := Ascii.nat_of_ascii c in
  N.of_nat (if (n <=? 57) then n - 48
            else if (n <=? 70) then n - 55 else n - 87)%nat.

(** Number of hex digits and their value, hyphens skipped. *)
Fixpoint hex_digits (s : string) (acc : nat * N) : option (nat * N) :=
  match s with
  | EmptyString => Some acc
  | String c rest =>
      if Ascii.eqb c "-"%char then hex_digits rest acc
      else if is_hex c
           then hex_digits rest (S (fst acc), (16 * snd acc + hex_val c)%N)
           else None
  end.

(** A parser in the spirit of [uuid.UUID]: hyphens aside, 32 hex digits. *)
Definition parse_uuid (s : string) : res uuid :=
  match hex_digits s (O, 0%N) with
  | Some (32%nat, v) => Val v
  | _ => Exc (ValueError "badly formed hexadecimal UUID string")
  end.

Definition env : Env :=
  mk_env parse_uuid
         (fun e => ("Traceback: " ++ exn_class e ++ ": " ++ exn_str e)%string)
         (mk_settings 1000 200 "key" "gemini-embedding-001" 768
                      "localhost" 6333 "web_documents").

Definition start : world := mk_world [] [] false 0.

Definition good_id : string := "12345678-1234-5678-1234-567812345678".

Definition attempt (n : nat) : Task := celery_task (Some (mk_request (Some n))).

Definition status_of (id : uuid) (w : world) : option string :=
  option_map job_status (lookup id (jobs w)).

End Lab.

(** ** The embedder calls of a trace *)

(** The [embed_documents] calls of a trace, in order: the batch passed and
    what came back. *)
Fixpoint embed_calls {W : Type} (tr : list (event W))
    : list (list string * res value) :=
  match tr with
  | [] => []
  | ev :: rest =>
      match ev_cmd ev with
      | embed_documents batch => (batch, ev_resp ev) :: embed_calls rest
      | _ => embed_calls rest
      end
  end.

(** The slices the loop takes: [chunks[i : i + batch_size]] for [i] in
    [range(0, len(chunks), batch_size)]. *)
Definition batches_of (chunks : list string) : list (list string) :=
  map (fun i => slice chunks i (i + batch_size))
      (range 0 (List.length chunks) batch_size).

Definition vectors_value (r : list vector) : res value := Val (VVectors r).

(** Did a call of the embedder return as many vectors as the batch it was
    given has chunks? *)
Definition answer_fits (call : list string * res value) : bool :=
  match snd call with
  | Val (VVectors vs) => (List.length vs =? List.length (fst call))%nat
  | _ => false
  end.

Section BatchFacts.
Context {W : Type}.
Variable C : Collaborators W.
Variable env : Env.

Lemma embed_calls_app (l1 l2 : list (event W)) :
  embed_calls (l1 ++ l2) = embed_calls l1 ++ embed_calls l2.
Proof.
  induction l1 as [|ev l1 IH]; simpl; [reflexivity|].
  destruct (ev_cmd ev); simpl; rewrite IH; reflexivity.
Qed.

Lemma embed_events_calls th chunks starts resps (evs : list (event W)) :
  embed_events C th chunks starts resps evs ->
  embed_calls evs
  = combine (map (fun i => slice chunks i (i + batch_size)) starts)
            (map vectors_value resps) /\
  List.length resps = List.length starts.
Proof.
  revert resps evs; induction starts as [|i starts IH];
    intros [|r resps] [|ev evs]; simpl; try tauto.
  intros [(w0 & _ & Hev) Hrest]. destruct (IH _ _ Hrest) as [Hc Hl].
  rewrite Hev. simpl. rewrite Hc. split; [reflexivity | congruence].
Qed.

Lemma embed_calls_threads (tr : list (event W)) :
  Forall (fun e => is_stage (ev_cmd e) = false) (view Main tr) ->
  embed_calls tr = embed_calls (view Worker tr).
Proof.
  induction tr as [|ev tr IH]; intros Hm; [reflexivity|].
  unfold view in Hm |- *. simpl in Hm |- *.
  destruct (ev_thread ev); simpl in Hm |- *.
  - inversion Hm as [|? ? Hns Hm']; subst.
    destruct (ev_cmd ev); simpl in Hns; try discriminate; apply IH; assumption.
  - destruct (ev_cmd ev); try (apply IH; assumption).
    f_equal. apply IH; assumption.
Qed.

(** What the embedder was asked and what it answered, whenever the worker
    got as far as the upsert of [chunks] and [vectors]. *)
Definition batched (chunks : list string) (vectors : list vector)
    (evs : list (event W)) : Prop :=
  exists resps,
    embed_calls evs = combine (batches_of chunks) (map vectors_value resps) /\
    List.length resps = List.length (batches_of chunks) /\
    vectors = List.concat resps.

Lemma is_embed_not_upsert (ev : event W) :
  is_embed ev -> ~ is_upsert ev.
Proof. intros [b Hb] (a1 & a2 & a3 & a4 & Hc). congruence. Qed.

Lemma work_batches th jid u evs out :
  steps C th (_work env jid u) evs out ->
  Forall (fun ev => forall chunks vectors md j,
            ev_cmd ev = add_documents chunks vectors md j ->
            batched chunks vectors evs /\
            exists text,
              gave th (chunk_text text (CHUNK_SIZE (settings env))
                         (CHUNK_OVERLAP (settings env))) (VStrs chunks) evs) evs.
Proof.
  unfold _work. intros H. explore H.
  all: repeat first
    [ apply Forall_nil
    | apply Forall_cons;
      [ cbn [ev_cmd ev_resp];
        let Hc := fresh "Hc" in
        intros ? ? ? ? Hc;
        first
          [ discriminate Hc
          | inversion Hc; subst; split;
            [ unfold batched; cbn [embed_calls ev_cmd ev_resp];
              rewrite embed_calls_app; cbn [embed_calls ev_cmd ev_resp];
              rewrite app_nil_r;
              match goal with
              | Hev : embed_events _ _ _ _ ?resps _ |- _ =>
                  destruct (embed_events_calls _ _ _ _ _ Hev) as [? ?];
                  exists resps; unfold batches_of;
                  split; [assumption | split; [rewrite length_map; assumption
                                              | reflexivity]]
              end
            | eexists; eexists; find_event ] ]
      | ]
    | match goal with
      | Hall : Forall is_embed ?l |- Forall _ ?l =>
          eapply Forall_impl; [| exact Hall];
          let Hemb := fresh in let Hc := fresh in
          intros ? Hemb ? ? ? ? Hc; exfalso;
          eapply is_embed_not_upsert; [exact Hemb | eexists _, _, _, _; exact Hc]
      end
    | apply Forall_app; split;
      [ eapply Forall_impl; [| eapply embed_events_are_embed; eassumption ];
        let Hemb := fresh in let Hc := fresh in
        intros ? Hemb ? ? ? ? Hc; exfalso;
        eapply is_embed_not_upsert; [exact Hemb | eexists _, _, _, _; exact Hc]
      | ] ].
Qed.

Lemma combine_fst {A B : Type} (l : list A) (m : list B) :
  List.length m = List.length l -> map fst (combine l m) = l.
Proof.
  revert m; induction l as [|a l IH]; intros [|b m]; simpl; try discriminate;
    [reflexivity|]. intros H. f_equal. apply IH. congruence.
Qed.

Lemma combine_snd {A B : Type} (l : list A) (m : list B) :
  List.length m = List.length l -> map snd (combine l m) = m.
Proof.
  revert m; induction l as [|a l IH]; intros [|b m]; simpl; try discriminate;
    [reflexivity|]. intros H. f_equal. apply IH. congruence.
Qed.

Lemma batches_bounded (chunks : list string) :
  Forall (fun b => (List.length b <= 100)%nat) (batches_of chunks).
Proof.
  unfold batches_of. apply Forall_forall. intros b Hb.
  apply in_map_iff in Hb. destruct Hb as (i & <- & _).
  pose proof (slice_length chunks i (i + batch_size)) as H.
  unfold batch_size in *. lia.
Qed.
End BatchFacts.

(** ** Positions in the concatenated answers *)

(** Lists of which every one but the last has exactly [n] elements, and
    the last at most [n]. *)
Fixpoint full_but_last {A : Type} (n : nat) (ls : list (list A)) : Prop :=
  match ls with
  | [] => True
  | l :: rest =>
      (List.length l <= n)%nat /\ (rest <> [] -> List.length l = n) /\
      full_but_last n rest
  end.

(** Position [i] of the concatenation is position [i mod n] of list
    [i / n]. *)
Lemma concat_nth_full {A : Type} (n : nat) (ls : list (list A)) (d : A) :
  (0 < n)%nat -> full_but_last n ls ->
  forall i, (i < List.length (List.concat ls))%nat ->
    nth i (List.concat ls) d = nth (i mod n) (nth (i / n) ls []) d.
Proof.
  intros Hn. induction ls as [|l rest IH]; intros Hf i Hi; [simpl in Hi; lia|].
  simpl in Hf. destruct Hf as (Hle & Hfull & Hrest).
  simpl in Hi |- *. rewrite length_app in Hi.
  destruct (lt_dec i (List.length l)) as [Hlt|Hge].
  - rewrite app_nth1 by exact Hlt.
    rewrite Nat.div_small, Nat.mod_small by lia. reflexivity.
  - assert (Hne : rest <> []).
    { intros ->. simpl in Hi. lia. }
    specialize (Hfull Hne).
    rewrite app_nth2 by lia. rewrite Hfull.
    rewrite IH by (assumption || lia).
    replace i with ((i - n) + 1 * n)%nat at 3 4 by lia.
    rewrite Nat.div_add, Nat.Div0.mod_add by lia.
    replace ((i - n) / n + 1)%nat with (S ((i - n) / n)) by lia.
    reflexivity.
Qed.

(** The slices of the loop are full, the last one apart. *)
Lemma full_but_last_slices {A : Type} (l : list A) :
  forall fuel start,
    full_but_last batch_size
      (map (fun i => slice l i (i + batch_size))
           (range_fuel fuel start (List.length l) batch_size)).
Proof.
  assert (Hlen : forall i, List.length (slice l i (i + batch_size))
                           = Nat.min batch_size (List.length l - i)).
  { intros i. unfold slice. replace (i + batch_size - i)%nat with batch_size by lia.
    rewrite length_firstn, length_skipn. reflexivity. }
  induction fuel as [|fuel IH]; intros start; simpl; [exact I|].
  destruct (start <? List.length l)%nat eqn:Hlt; [|exact I].
  apply Nat.ltb_lt in Hlt. simpl. rewrite Hlen.
  split; [apply Nat.le_min_l|]. split; [|apply IH].
  intros Hne. destruct fuel as [|fuel']; [exfalso; apply Hne; reflexivity|].
  simpl in Hne.
  destruct (start + batch_size <? List.length l)%nat eqn:Hlt2;
    [|exfalso; apply Hne; reflexivity].
  apply Nat.ltb_lt in Hlt2. apply Nat.min_l. lia.
Qed.

Lemma full_but_last_same_lengths {A B : Type} (n : nat)
    (bs : list (list A)) (rs : list (list B)) :
  Forall2 (fun b r => List.length r = List.length b) bs rs ->
  full_but_last n bs -> full_but_last n rs.
Proof.
  induction 1 as [|b r bs rs Hbr Hrest IH]; simpl; [auto|].
  intros (Hle & Hfull & Hf). rewrite Hbr. split; [exact Hle|].
  split; [|apply IH, Hf].
  intros Hne. apply Hfull. intros ->. inversion Hrest; subst. apply Hne; reflexivity.
Qed.

Lemma concat_same_lengths {A B : Type} (bs : list (list A)) (rs : list (list B)) :
  Forall2 (fun b r => List.length r = List.length b) bs rs ->
  List.length (List.concat rs) = List.length (List.concat bs).
Proof.
  induction 1 as [|b r bs rs Hbr _ IH]; simpl; [reflexivity|].
  rewrite !length_app. congruence.
Qed.

(** Calls whose answers all fit, read as lists of vectors. *)
Lemma answers_fit (calls : list (list string * res value))
    (resps : list (list vector)) :
  map snd calls = map vectors_value resps ->
  forallb answer_fits calls = true ->
  Forall2 (fun (b : list string) (r : list vector) => List.length r = List.length b)
          (map fst calls) resps.
Proof.
  revert resps; induction calls as [|[b r] calls IH]; intros [|v resps] Hm Hf;
    simpl in *; try discriminate.
  - constructor.
  - inversion Hm as [[Hr Hrest]]. apply andb_prop in Hf. destruct Hf as [Hfit Hf].
    constructor; [|apply IH; assumption].
    unfold answer_fits in Hfit. simpl in Hfit. rewrite Hr in Hfit.
    unfold vectors_value in Hfit. apply Nat.eqb_eq in Hfit. exact Hfit.
Qed.

(** * The claims *)

(** Modelled from the spec: the contract of [StatusStore.update] and
    [StatusStore.get] (section 6; [app/database.py] is not among the
    sources): an update that returns has stored the status and the fields
    it was given, as [get_job_by_id_sync] then shows. *)
Definition store_persists {W : Type} (C : Collaborators W) : Prop :=
  forall id st f w w',
    db_update_job_status C id st f w = (Val tt, w') ->
    exists rec,
      get_job_by_id_sync C id w' = Some rec /\
      job_status rec = st /\
      (forall n, chunk_count f = Some n -> job_chunk_count rec = Some n) /\
      (forall m, error_message f = Some m -> job_error_message rec = Some m).

(** The decision of the handler written out: the [if] at the end of
    [process_url_ingestion]. *)
Definition retry_or_fail (self : Task) (exc : exn) : Outcome :=
  if (retries_of self <? max_retries self)%nat
  then RetryScheduled exc (60 * 2 ^ Z.of_nat (retries_of self))
  else Failed exc.

Section Claims.
Context {W : Type}.
Variable C : Collaborators W.
Variable env : Env.

Local Abbreviation run_of self job_id url sch w :=
  (process_url_ingestion C env self job_id url sch w).

Lemma history_last w (l : list (event W)) ev w' :
  history C w (l ++ [ev]) w' -> w' = ev_after ev.
Proof.
  intros H. apply history_app_inv in H. destruct H as (w1 & _ & H).
  simpl in H. destruct H as [_ H]. exact H.
Qed.

Lemma history_quiet w m x w1 w' :
  history C w [mk_event Main (logger_info m x) (Val VNone) w1] w' -> w' = w.
Proof.
  simpl. intros [(r & Hp & _) ->]. inversion Hp; reflexivity.
Qed.

(** The handler's decision for any task object: it looks at the attempt
    counter and the caught exception, nothing else. *)
Lemma outcome_decided self job_id url sch w exc :
  caught_of (joined (run_of self job_id url sch w)) = Some exc ->
  outcome (run_of self job_id url sch w) = retry_or_fail self exc.
Proof.
  intros Hc. destruct (run_main C env self job_id url sch w) as (w0 & rest & _ & H).
  rewrite Hc in H. apply H.
Qed.

Lemma worker_view self job_id url sch w :
  steps C Worker (_work env job_id url)
        (view Worker (trace (run_of self job_id url sch w)))
        (worker_end (run_of self job_id url sch w)).
Proof. apply (run_sound C env self job_id url sch w). Qed.

Lemma raised_not_returned (evs : list (event W)) e :
  Exists (fun ev => ev_resp ev = Exc e) evs -> Forall returned evs -> False.
Proof.
  intros Hex Hall. apply Exists_exists in Hex. destruct Hex as (ev & Hin & Hr).
  eapply Forall_forall in Hall; [|eassumption].
  destruct Hall as [v Hv]. congruence.
Qed.

Lemma gave_app_l th c v (l1 l2 : list (event W)) :
  gave th c v l1 -> gave th c v (l1 ++ l2).
Proof. intros [w0 H]. exists w0. apply in_or_app. left; exact H. Qed.

Lemma gave_app_r th c v (l1 l2 : list (event W)) :
  gave th c v l2 -> gave th c v (l1 ++ l2).
Proof. intros [w0 H]. exists w0. apply in_or_app. right; exact H. Qed.

Lemma gave_cons th c v e (l : list (event W)) :
  gave th c v l -> gave th c v (e :: l).
Proof. intros [w0 H]. exists w0. right; exact H. Qed.

(** C1: when the job id parses, the join finds the worker finished and no
    call raised, the task returns {job_id, "completed", chunks_added} with
    [chunks_added] the count the vector store returned for the upsert, and
    the job read back from the status store is "completed" with
    [chunk_count] the number of chunks that chunking the fetched and
    cleaned text produced. *)
Theorem C1_success_is_completed self job_id url sch w id r :
  UUID env job_id = Val id ->
  joined (run_of self job_id url sch w) = Some r ->
  Forall returned (trace (run_of self job_id url sch w)) ->
  store_persists C ->
  exists html text chunks vectors added rec,
    gave Worker (fetch_url_content_sync url) (VStr html)
         (trace (run_of self job_id url sch w)) /\
    gave Worker (clean_html html) (VStr text)
         (trace (run_of self job_id url sch w)) /\
    gave Worker (chunk_text text (CHUNK_SIZE (settings env))
                   (CHUNK_OVERLAP (settings env))) (VStrs chunks)
         (trace (run_of self job_id url sch w)) /\
    gave Worker (add_documents chunks vectors [("source_url", url)] job_id)
         (VInt added) (trace (run_of self job_id url sch w)) /\
    outcome (run_of self job_id url sch w)
      = Returned (mk_result job_id "completed" added) /\
    get_job_by_id_sync C id (world (run_of self job_id url sch w)) = Some rec /\
    job_status rec = "completed" /\
    job_chunk_count rec = Some (len chunks).
Proof.
  intros HU Hj Hall Hstore.
  destruct (run_joined C env self job_id url sch w r Hj)
    as (e0 & t1 & t2 & w1 & om & Htr & _ & Hsw & _ & Hsm & _ & Hh2 & Hh1 & Ho & _).
  rewrite Htr in *. rewrite Ho. clear Ho Htr.
  assert (Hall1 : Forall returned t1).
  { inversion Hall as [|? ? _ Hrest]; subst.
    apply Forall_app in Hrest. apply Hrest. }
  destruct r as [result|e].
  - apply work_success in Hsw.
    destruct Hsw as (id' & html & text & chunks & vectors & added & tc & pre
                     & wa & wb & HU' & -> & Hdb & Hf & Hc & Hk & Ha & _ & ->).
    assert (id' = id) by congruence. subst id'.
    apply after_join_steps in Hsm. simpl in Hsm.
    destruct Hsm as (result & wl & Hres & -> & ->).
    inversion Hres; subst result; clear Hres.
    apply history_quiet in Hh2.
    change (e0 :: pre ++ [mk_event Worker (completed_write id tc chunks) (Val VNone) wb])
      with ((e0 :: pre) ++ [mk_event Worker (completed_write id tc chunks) (Val VNone) wb])
      in Hh1.
    apply history_last in Hh1. simpl in Hh1.
    destruct (Hstore _ _ _ _ _ Hdb) as (rec & Hg & Hs & Hn & _).
    exists html, text, chunks, vectors, added, rec.
    repeat split.
    + apply gave_cons, gave_app_l, gave_app_l, Hf.
    + apply gave_cons, gave_app_l, gave_app_l, Hc.
    + apply gave_cons, gave_app_l, gave_app_l, Hk.
    + apply gave_cons, gave_app_l, gave_app_l, Ha.
    + rewrite Hh2, Hh1. exact Hg.
    + exact Hs.
    + apply Hn. reflexivity.
  - exfalso. apply work_failure in Hsw. destruct Hsw as [Hu|Hex].
    + congruence.
    + eapply raised_not_returned; eassumption.
Qed.

Lemma in_trace_main self job_id url sch w ev :
  In ev (view Main (trace (run_of self job_id url sch w))) ->
  In ev (trace (run_of self job_id url sch w)) /\ ev_thread ev = Main.
Proof. apply view_in. Qed.

(** C3 (as the code has it): when the join times out (the worker is still
    alive after the 300 seconds), the handler catches
    [TimeoutError("Ingestion task timed out")] and treats it like any
    other exception: with attempt counter [k] it schedules a retry in
    60 * 2^k seconds when [k < max_retries] and re-raises otherwise; and
    when the job id parses it issues the "failed" write with that message.
    If that write returns, the job reads "failed" with the timeout message
    right after it (by the store's contract); nothing is said of later
    states, since the abandoned worker may still write. *)
Theorem C3_timeout_handled_like_any_failure self job_id url sch w :
  joined (run_of self job_id url sch w) = None ->
  caught_of (joined (run_of self job_id url sch w))
    = Some (TimeoutError "Ingestion task timed out") /\
  outcome (run_of self job_id url sch w) = retry_or_fail self timeout_error /\
  (forall k, task_request self = Some (mk_request (Some k)) ->
     ((k < max_retries self)%nat ->
      outcome (run_of self job_id url sch w)
        = RetryScheduled (TimeoutError "Ingestion task timed out")
                         (60 * 2 ^ Z.of_nat k)) /\
     ((max_retries self <= k)%nat ->
      outcome (run_of self job_id url sch w)
        = Failed (TimeoutError "Ingestion task timed out"))) /\
  (forall id, UUID env job_id = Val id ->
     exists ev,
       In ev (trace (run_of self job_id url sch w)) /\
       ev_thread ev = Main /\
       ev_cmd ev = update_job_status_sync id "failed"
                     (mk_fields None None None (Some "Ingestion task timed out")
                                (Some (format_exc env timeout_error))) /\
       (returned ev -> store_persists C ->
        exists rec,
          get_job_by_id_sync C id (ev_after ev) = Some rec /\
          job_status rec = "failed" /\
          job_error_message rec = Some "Ingestion task timed out")).
Proof.
  intros Hj.
  destruct (run_main C env self job_id url sch w) as (w0 & rest & Hv & H).
  rewrite Hj in *. simpl in H. destruct H as [Ho (wl & audit & tail & -> & Ha & _)].
  split; [reflexivity|]. split; [exact Ho|]. split.
  - intros k Hk.
    assert (Hn : retries_of self = k) by (unfold retries_of; rewrite Hk; reflexivity).
    assert (Ho' : outcome (run_of self job_id url sch w)
                  = retry_or_fail self timeout_error) by exact Ho.
    unfold retry_or_fail in Ho'. rewrite Hn in Ho'. split.
    + intros Hlt. apply Nat.ltb_lt in Hlt. rewrite Hlt in Ho'. exact Ho'.
    + intros Hge. apply Nat.ltb_ge in Hge. rewrite Hge in Ho'. exact Ho'.
  - intros id HU. unfold audit_events in Ha. rewrite HU in Ha.
    destruct Ha as (wa & r & wb & Hdb & Ha).
    assert (Hin : forall ev, In ev audit ->
                    In ev (trace (run_of self job_id url sch w)) /\ ev_thread ev = Main).
    { intros ev Hev. apply in_trace_main. rewrite Hv.
      right; right. apply in_or_app. left; exact Hev. }
    destruct r as [[]|e2].
    + subst audit. destruct (Hin _ (or_introl eq_refl)) as [Hi Ht].
      eexists. split; [exact Hi|]. split; [exact Ht|]. split; [reflexivity|].
      intros _ Hstore.
      destruct (Hstore _ _ _ _ _ Hdb) as (rec & Hg & Hs & _ & Hm).
      exists rec. split; [exact Hg|]. split; [exact Hs|]. apply Hm. reflexivity.
    + destruct Ha as (wc & ->). destruct (Hin _ (or_introl eq_refl)) as [Hi Ht].
      eexists. split; [exact Hi|]. split; [exact Ht|]. split; [reflexivity|].
      intros [v Hv']. discriminate.
Qed.

(** C4: after a failed attempt (the handler caught [exc]) the task declared
    with [max_retries=3], running with [self.request.retries = k],
    schedules a retry exactly when [k] is below 3, with countdown 60 * 2^k
    seconds (60, 120, 240); from 3 on it schedules nothing and re-raises
    [exc]. *)
Theorem C4_retry_below_max_with_backoff k job_id url sch w exc :
  caught_of (joined (run_of (celery_task (Some (mk_request (Some k))))
                            job_id url sch w)) = Some exc ->
  ((k < 3)%nat ->
   outcome (run_of (celery_task (Some (mk_request (Some k)))) job_id url sch w)
     = RetryScheduled exc (60 * 2 ^ Z.of_nat k)) /\
  ((3 <= k)%nat ->
   outcome (run_of (celery_task (Some (mk_request (Some k)))) job_id url sch w)
     = Failed exc) /\
  (k = 0%nat ->
   outcome (run_of (celery_task (Some (mk_request (Some k)))) job_id url sch w)
     = RetryScheduled exc 60) /\
  (k = 1%nat ->
   outcome (run_of (celery_task (Some (mk_request (Some k)))) job_id url sch w)
     = RetryScheduled exc 120) /\
  (k = 2%nat ->
   outcome (run_of (celery_task (Some (mk_request (Some k)))) job_id url sch w)
     = RetryScheduled exc 240).
Proof.
  intros Hc. rewrite (outcome_decided _ _ _ _ _ _ Hc).
  unfold retry_or_fail.
  change (retries_of (celery_task (Some (mk_request (Some k))))) with k.
  change (max_retries (celery_task (Some (mk_request (Some k))))) with 3%nat.
  repeat split.
  - intros Hn. apply Nat.ltb_lt in Hn. rewrite Hn. reflexivity.
  - intros Hn. apply Nat.ltb_ge in Hn. rewrite Hn. reflexivity.
  - intros ->. reflexivity.
  - intros ->. reflexivity.
  - intros ->. reflexivity.
Qed.

(** C8: when the handler's own "failed" write raises [e2], that error is
    logged ("Failed to persist job failure") and the task still exits as
    the attempt counter and the originally caught exception dictate. *)
Theorem C8_audit_failure_is_logged_only self job_id url sch w exc ev id f e2 :
  caught_of (joined (run_of self job_id url sch w)) = Some exc ->
  In ev (trace (run_of self job_id url sch w)) ->
  ev_thread ev = Main ->
  ev_cmd ev = update_job_status_sync id "failed" f ->
  ev_resp ev = Exc e2 ->
  gave Main (logger_error "Failed to persist job failure"
               [("job_id", VStr job_id); ("error", VStr (exn_str e2))])
       VNone (trace (run_of self job_id url sch w)) /\
  outcome (run_of self job_id url sch w) = retry_or_fail self exc.
Proof.
  intros Hc Hin Ht Hcmd Hr. split; [|apply outcome_decided; exact Hc].
  destruct (run_main C env self job_id url sch w) as (w0 & rest & Hv & H).
  rewrite Hc in H. destruct H as [_ (wl & audit & tail & -> & Ha & Htail)].
  apply in_view in Hin. rewrite Ht, Hv in Hin.
  assert (Hlog : forall wx, In (mk_event Main (log_persist_failed job_id e2) (Val VNone) wx) audit ->
            gave Main (log_persist_failed job_id e2) VNone
                 (trace (run_of self job_id url sch w))).
  { intros wx Hx. exists wx. eapply in_trace_main. rewrite Hv.
    right; right. apply in_or_app. left; exact Hx. }
  destruct Hin as [<-|[<-|Hin]]; try discriminate.
  apply in_app_or in Hin. destruct Hin as [Hin|Hin].
  - unfold audit_events in Ha. destruct (UUID env job_id) as [id'|e3].
    + destruct Ha as (wa & r & wb & Hdb & Ha). destruct r as [[]|e3].
      * subst audit. destruct Hin as [<-|[]]. discriminate.
      * destruct Ha as (wc & ->). destruct Hin as [<-|[<-|[]]]; try discriminate.
        simpl in Hr. inversion Hr; subst e3.
        apply (Hlog wc). right; left; reflexivity.
    + destruct Ha as (wx & ->). destruct Hin as [<-|[]]. discriminate.
  - unfold retry_events in Htail.
    destruct (retries_of self <? max_retries self)%nat.
    + destruct Htail as (wx & ->). destruct Hin as [<-|[]]. discriminate.
    + subst tail. destruct Hin.
Qed.

Definition is_log (c : Cmd) : Prop :=
  (exists m x, c = logger_info m x) \/ (exists m x, c = logger_error m x).

(** The exception the handler catches, given how the worker ended: the
    worker's own when the join found it finished, the timeout otherwise. *)
Lemma caught_cases self job_id url sch w e :
  worker_end (run_of self job_id url sch w) = Exc e ->
  exists exc,
    caught_of (joined (run_of self job_id url sch w)) = Some exc /\
    outcome (run_of self job_id url sch w) = retry_or_fail self exc /\
    (joined (run_of self job_id url sch w) <> None -> exc = e).
Proof.
  intros Hw.
  destruct (joined (run_of self job_id url sch w)) as [r|] eqn:Hj.
  - pose proof (joined_worker_end C env self job_id url sch w r Hj) as Hr.
    rewrite Hw in Hr. subst r. exists e.
    split; [reflexivity|]. split; [|reflexivity].
    apply outcome_decided. rewrite Hj. reflexivity.
  - exists timeout_error. split; [reflexivity|]. split; [|congruence].
    apply outcome_decided. rewrite Hj. reflexivity.
Qed.

(** C5 (as the code has it): a job id that does not parse ends the worker
    before any call but logging; the handler cannot write "failed" either
    (the id does not parse there either) and logs that; so the trace holds
    log lines only.  The failure then goes through the ordinary retry
    decision. *)
Theorem C5_malformed_id_no_writes_but_retried self job_id url sch w e :
  UUID env job_id = Exc e ->
  Forall (fun ev => is_log (ev_cmd ev)) (trace (run_of self job_id url sch w)) /\
  exists exc,
    caught_of (joined (run_of self job_id url sch w)) = Some exc /\
    outcome (run_of self job_id url sch w) = retry_or_fail self exc /\
    (joined (run_of self job_id url sch w) <> None -> exc = e).
Proof.
  intros HU.
  pose proof (worker_view self job_id url sch w) as Hw.
  destruct (work_malformed C env _ _ _ _ _ _ HU Hw) as [Hend (ww & Hv)].
  split; [|apply caught_cases; exact Hend].
  apply Forall_threads.
  - destruct (run_main C env self job_id url sch w) as (w0 & rest & -> & H).
    apply Forall_cons; [left; eexists _, _; reflexivity|].
    destruct (caught_of (joined _)) as [exc|].
    + destruct H as [_ (wl & audit & tail & -> & Ha & Htail)].
      apply Forall_cons; [right; eexists _, _; reflexivity|].
      apply Forall_app. split.
      * unfold audit_events in Ha. rewrite HU in Ha. destruct Ha as (wx & ->).
        apply Forall_cons; [right; eexists _, _; reflexivity | apply Forall_nil].
      * unfold retry_events in Htail.
        destruct (retries_of self <? max_retries self)%nat.
        -- destruct Htail as (wx & ->).
           apply Forall_cons; [left; eexists _, _; reflexivity | apply Forall_nil].
        -- subst tail. apply Forall_nil.
    + destruct H as (result & w1 & _ & _ & ->).
      apply Forall_cons; [left; eexists _, _; reflexivity | apply Forall_nil].
  - rewrite Hv. apply Forall_cons; [left; eexists _, _; reflexivity | apply Forall_nil].
Qed.

Lemma exists_worker (tr : list (event W)) e :
  Exists (fun ev => ev_resp ev = Exc e) (view Worker tr) ->
  Exists (fun ev => ev_thread ev = Worker /\ ev_resp ev = Exc e) tr.
Proof.
  intros H. apply Exists_exists in H. destruct H as (ev & Hin & Hr).
  apply view_in in Hin. destruct Hin as [Hin Ht].
  apply Exists_exists. exists ev. auto.
Qed.

(** C6 (as the code has it): the task compares no counts.  A worker ends
    with an exception only if the job id did not parse or one of its calls
    raised that exception; when the id parses and every call of the worker
    returns, it goes on to upsert the chunks and whatever vectors the
    embedder returned, and ends with the "completed" record. *)
Theorem C6_no_count_check self job_id url sch w :
  (forall e, worker_end (run_of self job_id url sch w) = Exc e ->
     UUID env job_id = Exc e \/
     Exists (fun ev => ev_thread ev = Worker /\ ev_resp ev = Exc e)
            (trace (run_of self job_id url sch w))) /\
  (forall id, UUID env job_id = Val id ->
     Forall returned (view Worker (trace (run_of self job_id url sch w))) ->
     exists text chunks vectors added,
       gave Worker (chunk_text text (CHUNK_SIZE (settings env))
                      (CHUNK_OVERLAP (settings env))) (VStrs chunks)
            (trace (run_of self job_id url sch w)) /\
       gave Worker (add_documents chunks vectors [("source_url", url)] job_id)
            (VInt added) (trace (run_of self job_id url sch w)) /\
       worker_end (run_of self job_id url sch w)
         = Val (mk_result job_id "completed" added)) /\
  (forall result, joined (run_of self job_id url sch w) = Some (Val result) ->
     outcome (run_of self job_id url sch w) = Returned result).
Proof.
  pose proof (worker_view self job_id url sch w) as Hw.
  split; [|split].
  - intros e He. rewrite He in Hw. apply work_failure in Hw.
    destruct Hw as [Hu|Hex]; [left; exact Hu | right; apply exists_worker, Hex].
  - intros id HU Hall.
    destruct (worker_end (run_of self job_id url sch w)) as [result|e].
    + apply work_success in Hw.
      destruct Hw as (id' & html & text & chunks & vectors & added & tc & pre
                      & wa & wb & _ & Hv & _ & _ & _ & Hk & Ha & _ & ->).
      assert (Hsub : forall c v, gave Worker c v pre ->
                gave Worker c v (trace (run_of self job_id url sch w))).
      { intros c v [wx Hx]. exists wx.
        eapply view_in. rewrite Hv. apply in_or_app. left; exact Hx. }
      exists text, chunks, vectors, added. auto.
    + exfalso. apply work_failure in Hw. destruct Hw as [Hu|Hex].
      * congruence.
      * eapply raised_not_returned; eassumption.
  - intros result Hj.
    destruct (run_main C env self job_id url sch w) as (w0 & rest & _ & H).
    rewrite Hj in H. simpl in H. destruct H as (result' & w1 & Hr & Ho & _).
    congruence.
Qed.

Lemma in_worker_view self job_id url sch w (P : Cmd -> Prop) ev :
  In ev (trace (run_of self job_id url sch w)) ->
  P (ev_cmd ev) -> (forall c, main_call c -> ~ P c) ->
  In ev (view Worker (trace (run_of self job_id url sch w))).
Proof.
  intros Hin HP Hmain. apply in_view in Hin.
  destruct (ev_thread ev); [|exact Hin].
  exfalso. pose proof (run_main_calls C env self job_id url sch w) as Hm.
  eapply Forall_forall in Hm; [|exact Hin]. exact (Hmain _ Hm HP).
Qed.

Lemma main_call_not_processing c : main_call c -> ~ is_processing_write c.
Proof.
  intros [(m & x & ->)|[(m & x & ->)|(id & f & ->)]] (id' & f' & H);
    discriminate.
Qed.

(** C7 (as the code has it): if the "processing" write raises [e], the
    attempt is over: the worker ends with [e], no pipeline stage is called
    in that run, and the handler treats [e] like any other failure (or the
    timeout, if the join had already given up). *)
Theorem C7_processing_failure_aborts self job_id url sch w ev id f e :
  In ev (trace (run_of self job_id url sch w)) ->
  ev_cmd ev = update_job_status_sync id "processing" f ->
  ev_resp ev = Exc e ->
  Forall (fun e' => is_stage (ev_cmd e') = false)
         (trace (run_of self job_id url sch w)) /\
  worker_end (run_of self job_id url sch w) = Exc e /\
  exists exc,
    caught_of (joined (run_of self job_id url sch w)) = Some exc /\
    outcome (run_of self job_id url sch w) = retry_or_fail self exc /\
    (joined (run_of self job_id url sch w) <> None -> exc = e).
Proof.
  intros Hin Hc Hr.
  assert (Hp : is_processing_write (ev_cmd ev)) by (eexists _, _; exact Hc).
  apply (in_worker_view _ _ _ _ _ is_processing_write) in Hin;
    [|exact Hp | apply main_call_not_processing].
  pose proof (worker_view self job_id url sch w) as Hw.
  pose proof (work_processing_raises C env _ _ _ _ _ Hw) as Hall.
  eapply Forall_forall in Hall; [|exact Hin].
  destruct (Hall Hp e Hr) as [Hend Hns].
  split; [|split; [exact Hend | apply caught_cases; exact Hend]].
  apply Forall_threads; [|exact Hns].
  eapply Forall_impl; [|apply (run_main_calls C env self job_id url sch w)].
  intros a Ha. apply main_call_not_stage, Ha.
Qed.

(** C10: in every run, whoever's turn it is and whatever the attempt
    counter, an [add_documents] call is preceded in the trace by a
    [create_collection_if_not_exists] call of the worker that returned. *)
Theorem C10_collection_ensured_before_upsert self job_id url sch w pre ev post :
  trace (run_of self job_id url sch w) = pre ++ ev :: post ->
  is_upsert ev ->
  exists e, In e pre /\ ev_thread e = Worker /\
            ev_cmd e = create_collection_if_not_exists /\ returned e.
Proof.
  intros Htr Hup.
  pose proof (worker_view self job_id url sch w) as Hw.
  apply work_guarded in Hw.
  assert (Hg : upsert_guarded false (trace (run_of self job_id url sch w))).
  { apply guarded_threads; [|exact Hw].
    eapply Forall_impl; [|apply (run_main_calls C env self job_id url sch w)].
    intros a Ha. apply main_call_not_stage, Ha. }
  destruct (guarded_before _ _ Hg _ _ _ Htr Hup) as [Hf|(e0 & Hin & Hc & Hr)];
    [discriminate|].
  exists e0. split; [exact Hin|]. split; [|split; assumption].
  assert (Hin' : In e0 (trace (run_of self job_id url sch w))).
  { rewrite Htr. apply in_or_app. left; exact Hin. }
  apply in_view in Hin'. destruct (ev_thread e0); [|reflexivity].
  exfalso. pose proof (run_main_calls C env self job_id url sch w) as Hm.
  eapply Forall_forall in Hm; [|exact Hin'].
  apply main_call_not_stage in Hm. rewrite Hc in Hm. discriminate.
Qed.

Lemma main_call_not_upsert c :
  main_call c ->
  ~ (exists chunks vectors md j, c = add_documents chunks vectors md j).
Proof.
  intros [(m & x & ->)|[(m & x & ->)|(id & f & ->)]] (a1 & a2 & a3 & a4 & H);
    discriminate.
Qed.

(** C9 (as the code has it): whenever a run gets as far as the upsert of
    [chunks] and [vectors], [chunks] is what the chunker returned, the
    embedder was called ceil(len(chunks) / 100) times, on consecutive
    slices of at most 100 chunks that together are [chunks], and
    [vectors] is the concatenation of its answers in call order.  The
    task compares no counts.  When every answer has as many vectors as
    its batch has chunks, [vectors] has the length of [chunks], and its
    position [i] holds what the embedder answered for chunk [i]: position
    [i mod 100] of the answer to batch [i / 100], the batch that has
    chunk [i] at that position. *)
Theorem C9_embedding_in_batches_of_100 self job_id url sch w ev chunks vectors md j :
  In ev (trace (run_of self job_id url sch w)) ->
  ev_cmd ev = add_documents chunks vectors md j ->
  List.length (embed_calls (trace (run_of self job_id url sch w)))
    = ((List.length chunks + 99) / 100)%nat /\
  List.concat (map fst (embed_calls (trace (run_of self job_id url sch w))))
    = chunks /\
  Forall (fun b => (List.length b <= 100)%nat)
         (map fst (embed_calls (trace (run_of self job_id url sch w)))) /\
  (exists text,
      gave Worker (chunk_text text (CHUNK_SIZE (settings env))
                     (CHUNK_OVERLAP (settings env))) (VStrs chunks)
           (trace (run_of self job_id url sch w))) /\
  exists resps,
    map snd (embed_calls (trace (run_of self job_id url sch w)))
      = map vectors_value resps /\
    vectors = List.concat resps /\
    (forallb answer_fits (embed_calls (trace (run_of self job_id url sch w))) = true ->
     List.length vectors = List.length chunks /\
     forall i dv dc, (i < List.length chunks)%nat ->
       nth i vectors dv = nth (i mod 100) (nth (i / 100) resps []) dv /\
       nth i chunks dc
         = nth (i mod 100)
               (nth (i / 100)
                    (map fst (embed_calls (trace (run_of self job_id url sch w))))
                    []) dc).
Proof.
  intros Hin Hc.
  apply (in_worker_view _ _ _ _ _
           (fun c => exists a1 a2 a3 a4, c = add_documents a1 a2 a3 a4)) in Hin;
    [|eexists _, _, _, _; exact Hc | apply main_call_not_upsert].
  pose proof (worker_view self job_id url sch w) as Hw.
  pose proof (work_batches C env _ _ _ _ _ Hw) as Hall.
  eapply Forall_forall in Hall; [|exact Hin].
  destruct (Hall _ _ _ _ Hc) as [(resps & Hcalls & Hlen & Hvec) (text & wt & Ht)].
  rewrite <- embed_calls_threads in Hcalls.
  2:{ eapply Forall_impl; [|apply (run_main_calls C env self job_id url sch w)].
      intros a Ha. apply main_call_not_stage, Ha. }
  assert (Hlen' : List.length (map vectors_value resps) = List.length (batches_of chunks))
    by (rewrite length_map; exact Hlen).
  assert (Htile : List.concat (batches_of chunks) = chunks) by apply range_tiles.
  assert (Hfull : full_but_last batch_size (batches_of chunks))
    by apply full_but_last_slices.
  assert (Hfst : map fst (embed_calls (trace (run_of self job_id url sch w)))
                 = batches_of chunks)
    by (rewrite Hcalls; apply (combine_fst _ _ Hlen')).
  assert (Hsnd : map snd (embed_calls (trace (run_of self job_id url sch w)))
                 = map vectors_value resps)
    by (rewrite Hcalls; apply (combine_snd _ _ Hlen')).
  split; [|split; [|split; [|split]]].
  - rewrite <- (length_map fst), Hfst.
    unfold batches_of. rewrite length_map. apply range_length.
  - rewrite Hfst. exact Htile.
  - rewrite Hfst. apply batches_bounded.
  - exists text, wt. eapply view_in. exact Ht.
  - exists resps. split; [exact Hsnd|]. split; [exact Hvec|].
    intros Hfit. pose proof (answers_fit _ _ Hsnd Hfit) as Hsame.
    rewrite Hfst in Hsame |- *.
    assert (Hl : List.length vectors = List.length chunks).
    { rewrite Hvec, (concat_same_lengths _ _ Hsame), Htile. reflexivity. }
    split; [exact Hl|]. intros i dv dc Hi. split.
    + rewrite Hvec. apply (concat_nth_full batch_size);
        [unfold batch_size; lia | eapply full_but_last_same_lengths; eassumption |].
      rewrite <- Hvec, Hl. exact Hi.
    + rewrite <- Htile at 1. apply (concat_nth_full batch_size);
        [unfold batch_size; lia | exact Hfull |].
      rewrite Htile. exact Hi.
Qed.

Lemma last_of_app {A : Type} (l1 l2 p : list A) (x : A) :
  l1 ++ l2 = p ++ [x] -> l2 <> [] -> exists l2', l2 = l2' ++ [x].
Proof.
  intros H Hne. destruct (exists_last Hne) as (l2' & y & ->).
  rewrite app_assoc in H. apply app_inj_tail in H. destruct H as [_ ->].
  exists l2'. reflexivity.
Qed.

(** C2 (as the code has it): when the join times out, the task stops
    waiting and goes through the handler with the [TimeoutError]; the
    worker is not stopped and nothing stands between it and the stores.
    If the job id parses and none of the worker's calls raises, its
    "completed" write is made after the deadline and returns, and the
    store then shows the job as "completed". *)
Theorem C2_abandoned_attempt_runs_on self job_id url sch w :
  joined (run_of self job_id url sch w) = None ->
  outcome (run_of self job_id url sch w) = retry_or_fail self timeout_error /\
  forall id,
    UUID env job_id = Val id ->
    Forall returned (view Worker (trace (run_of self job_id url sch w))) ->
    exists t (chunks : list string) pre ev post,
      trace (run_of self job_id url sch w) = pre ++ ev :: post /\
      (deadline_at (run_of self job_id url sch w) <= List.length pre)%nat /\
      ev_thread ev = Worker /\
      ev_cmd ev = update_job_status_sync id "completed"
                    (mk_fields None (Some t) (Some (len chunks)) None None) /\
      ev_resp ev = Val VNone /\
      (store_persists C ->
       exists rec, get_job_by_id_sync C id (ev_after ev) = Some rec /\
                   job_status rec = "completed").
Proof.
  intros Hj. split.
  { apply outcome_decided. rewrite Hj. reflexivity. }
  intros id HU Hall.
  destruct (run_abandoned C env self job_id url sch w Hj)
    as (e0 & t1 & t2 & Htr & Hd & Ht0 & Ha1 & Hne & Hs).
  assert (Hview : view Worker (trace (run_of self job_id url sch w))
                  = t1 ++ view Worker t2).
  { rewrite Htr. change (e0 :: t1 ++ t2) with ([e0] ++ t1 ++ t2).
    rewrite !view_app. rewrite (view_same _ _ Ha1).
    unfold view at 1. simpl. rewrite Ht0. reflexivity. }
  rewrite Hview in Hall.
  destruct (worker_end (run_of self job_id url sch w)) as [result|e].
  - apply work_success in Hs.
    destruct Hs as (id' & html & text & chunks & vectors & added & tc & pre
                    & wa & wb & HU' & Hv & Hdb & _).
    assert (id' = id) by congruence. subst id'.
    destruct (last_of_app _ _ _ _ Hv Hne) as (l2' & Hl2).
    assert (Hin : In (mk_event Worker (completed_write id tc chunks) (Val VNone) wb) t2).
    { eapply view_in. rewrite Hl2. apply in_or_app. right; left; reflexivity. }
    apply in_split in Hin. destruct Hin as (a & b & Hab).
    exists tc, chunks, (e0 :: t1 ++ a),
      (mk_event Worker (completed_write id tc chunks) (Val VNone) wb), b.
    split; [rewrite Htr, Hab; simpl; rewrite <- app_assoc; reflexivity|].
    split; [rewrite Hd; simpl; rewrite length_app; lia|].
    split; [reflexivity|]. split; [reflexivity|]. split; [reflexivity|].
    intros Hstore. destruct (Hstore _ _ _ _ _ Hdb) as (rec & Hg & Hst & _).
    exists rec. auto.
  - exfalso. apply work_failure in Hs. destruct Hs as [Hu|Hex].
    + congruence.
    + eapply raised_not_returned; eassumption.
Qed.
End Claims.

(** * The claims on explicit runs *)

(** Boolean readings of trace properties, for evaluation. *)
Definition resp_ok {W : Type} (ev : event W) : bool :=
  match ev_resp ev with
  | Val _ => true
  | Exc _ => false
  end.

Definition is_store_write (c : Cmd) : bool :=
  match c with
  | update_job_status_sync _ _ _ | create_collection_if_not_exists
  | add_documents _ _ _ _ => true
  | _ => false
  end.

(** The store writes the worker made after the join had returned. *)
Definition late_worker_writes {W : Type} (r : @Run W) : list (Cmd * res value) :=
  map (fun ev => (ev_cmd ev, ev_resp ev))
      (filter (fun ev => thread_eqb (ev_thread ev) Worker && is_store_write (ev_cmd ev))
              (skipn (deadline_at r) (trace r))).

Definition lab_run (fl : Lab.faults) (n : nat) (job_id url : string)
    (sch : Schedule) : @Run Lab.world :=
  process_url_ingestion (Lab.collab fl) Lab.env (Lab.attempt n) job_id url sch Lab.start.

Definition lab_id : uuid := 24197857161011715162171839636988778104%N.

(** Does the job [lab_id] read "failed" after any call of the run? *)
Definition ever_failed (r : @Run Lab.world) : bool :=
  existsb (fun ev => match Lab.status_of lab_id (ev_after ev) with
                     | Some st => String.eqb st "failed"
                     | None => false
                     end)
          (trace r).

Definition is_upsert_call (c : Cmd) : bool :=
  match c with
  | add_documents _ _ _ _ => true
  | _ => false
  end.

(** A page of [n] one-letter words. *)
Fixpoint page (n : nat) : string :=
  match n with
  | O => ""
  | S n' => String "w" (String " " (page n'))
  end.

Lemma all_returned {W : Type} (tr : list (event W)) :
  forallb resp_ok tr = true -> Forall returned tr.
Proof.
  intros H. apply Forall_forall. intros ev Hin.
  rewrite forallb_forall in H. specialize (H ev Hin).
  unfold resp_ok in H. unfold returned.
  destruct (ev_resp ev) as [v|e]; [exists v; reflexivity | discriminate].
Qed.

Lemma lab_persists (fl : Lab.faults) : store_persists (Lab.collab fl).
Proof.
  intros id st f w w' H. simpl in H. unfold Lab.update in H.
  destruct ((String.eqb st "processing" && Lab.processing_write_raises fl)
            || (String.eqb st "failed" && Lab.failed_write_raises fl));
    [discriminate|].
  inversion H; subst; clear H. simpl. rewrite N.eqb_refl.
  eexists. split; [reflexivity|]. simpl. split; [reflexivity|].
  split; intros x Hx; rewrite Hx; reflexivity.
Qed.

Lemma C1_witness :
  exists html text chunks vectors added rec,
    gave Worker (fetch_url_content_sync "alpha beta gamma") (VStr html)
         (trace (lab_run Lab.no_faults 0 Lab.good_id "alpha beta gamma" InTime)) /\
    gave Worker (clean_html html) (VStr text)
         (trace (lab_run Lab.no_faults 0 Lab.good_id "alpha beta gamma" InTime)) /\
    gave Worker (chunk_text text 1000 200) (VStrs chunks)
         (trace (lab_run Lab.no_faults 0 Lab.good_id "alpha beta gamma" InTime)) /\
    gave Worker (add_documents chunks vectors
                   [("source_url", "alpha beta gamma")] Lab.good_id)
         (VInt added)
         (trace (lab_run Lab.no_faults 0 Lab.good_id "alpha beta gamma" InTime)) /\
    outcome (lab_run Lab.no_faults 0 Lab.good_id "alpha beta gamma" InTime)
      = Returned (mk_result Lab.good_id "completed" added) /\
    Lab.lookup lab_id
      (Lab.jobs (world (lab_run Lab.no_faults 0 Lab.good_id "alpha beta gamma" InTime)))
      = Some rec /\
    job_status rec = "completed" /\
    job_chunk_count rec = Some (len chunks).
Proof.
  apply (C1_success_is_completed (Lab.collab Lab.no_faults) Lab.env
           (Lab.attempt 0) Lab.good_id "alpha beta gamma" InTime Lab.start lab_id
           (Val (mk_result Lab.good_id "completed" 3))).
  - vm_compute. reflexivity.
  - vm_compute. reflexivity.
  - apply all_returned. vm_compute. reflexivity.
  - apply lab_persists.
Defined.

(** C2, as stated, fails: the deadline passes after the worker's fetch; the
    task schedules a retry for the timeout, and afterwards the abandoned
    worker still ensures the collection, upserts three vectors and writes
    "completed", which is what the store shows in the end. *)
Lemma C2_counterexample :
  joined (lab_run Lab.no_faults 0 Lab.good_id "alpha beta gamma" (Overrun 6 [])) = None /\
  outcome (lab_run Lab.no_faults 0 Lab.good_id "alpha beta gamma" (Overrun 6 []))
    = RetryScheduled (TimeoutError "Ingestion task timed out") 60 /\
  late_worker_writes (lab_run Lab.no_faults 0 Lab.good_id "alpha beta gamma" (Overrun 6 []))
    = [(create_collection_if_not_exists, Val VNone);
       (add_documents ["alpha"; "beta"; "gamma"]
          [[PrimFloat.one]; [PrimFloat.one]; [PrimFloat.one]]
          [("source_url", "alpha beta gamma")] Lab.good_id, Val (VInt 3));
       (update_job_status_sync lab_id "completed"
          (mk_fields None (Some 5) (Some 3) None None), Val VNone)] /\
  Lab.status_of lab_id
    (world (lab_run Lab.no_faults 0 Lab.good_id "alpha beta gamma" (Overrun 6 [])))
    = Some "completed" /\
  List.length (Lab.points
    (world (lab_run Lab.no_faults 0 Lab.good_id "alpha beta gamma" (Overrun 6 []))))
    = 3%nat.
Proof. vm_compute. repeat split; reflexivity. Qed.

Lemma C2_witness :
  exists t (chunks : list string) pre ev post,
    trace (lab_run Lab.no_faults 0 Lab.good_id "alpha beta gamma" (Overrun 6 [Worker; Main]))
      = pre ++ ev :: post /\
    (deadline_at (lab_run Lab.no_faults 0 Lab.good_id "alpha beta gamma"
                    (Overrun 6 [Worker; Main])) <= List.length pre)%nat /\
    ev_thread ev = Worker /\
    ev_cmd ev = update_job_status_sync lab_id "completed"
                  (mk_fields None (Some t) (Some (len chunks)) None None) /\
    ev_resp ev = Val VNone /\
    (store_persists (Lab.collab Lab.no_faults) ->
     exists rec, Lab.lookup lab_id (Lab.jobs (ev_after ev)) = Some rec /\
                 job_status rec = "completed").
Proof.
  refine (proj2 (C2_abandoned_attempt_runs_on (Lab.collab Lab.no_faults) Lab.env
            (Lab.attempt 0) Lab.good_id "alpha beta gamma"
            (Overrun 6 [Worker; Main]) Lab.start _) lab_id _ _).
  - vm_compute. reflexivity.
  - vm_compute. reflexivity.
  - apply all_returned. vm_compute. reflexivity.
Defined.

(** C3, as stated, fails: the deadline passes after the worker's fetch and
    a retry is scheduled for the timeout, but the job does not stay
    "failed".  In the first run the handler's "failed" write is applied
    and the abandoned worker then overwrites it: the store shows
    "completed" in the end.  In the second run the status store refuses
    the "failed" write: the job never reads "failed" at all. *)
Lemma C3_counterexample :
  joined (lab_run Lab.no_faults 0 Lab.good_id "alpha beta gamma" (Overrun 6 [])) = None /\
  outcome (lab_run Lab.no_faults 0 Lab.good_id "alpha beta gamma" (Overrun 6 []))
    = RetryScheduled (TimeoutError "Ingestion task timed out") 60 /\
  ever_failed (lab_run Lab.no_faults 0 Lab.good_id "alpha beta gamma" (Overrun 6 []))
    = true /\
  Lab.status_of lab_id
    (world (lab_run Lab.no_faults 0 Lab.good_id "alpha beta gamma" (Overrun 6 [])))
    = Some "completed" /\
  joined (lab_run (Lab.mk_faults false true false) 0 Lab.good_id
            "alpha beta gamma" (Overrun 6 [])) = None /\
  outcome (lab_run (Lab.mk_faults false true false) 0 Lab.good_id
             "alpha beta gamma" (Overrun 6 []))
    = RetryScheduled (TimeoutError "Ingestion task timed out") 60 /\
  ever_failed (lab_run (Lab.mk_faults false true false) 0 Lab.good_id
                 "alpha beta gamma" (Overrun 6 []))
    = false /\
  Lab.status_of lab_id
    (world (lab_run (Lab.mk_faults false true false) 0 Lab.good_id
              "alpha beta gamma" (Overrun 6 [])))
    = Some "completed".
Proof. vm_compute. repeat split; reflexivity. Qed.

Lemma C3_witness :
  caught_of (joined (lab_run Lab.no_faults 1 Lab.good_id "alpha beta gamma" (Overrun 6 [])))
    = Some (TimeoutError "Ingestion task timed out") /\
  outcome (lab_run Lab.no_faults 1 Lab.good_id "alpha beta gamma" (Overrun 6 []))
    = RetryScheduled (TimeoutError "Ingestion task timed out") 120 /\
  exists ev rec,
    In ev (trace (lab_run Lab.no_faults 1 Lab.good_id "alpha beta gamma" (Overrun 6 []))) /\
    ev_thread ev = Main /\
    ev_cmd ev = update_job_status_sync lab_id "failed"
                  (mk_fields None None None (Some "Ingestion task timed out")
                             (Some (format_exc Lab.env timeout_error))) /\
    Lab.lookup lab_id (Lab.jobs (ev_after ev)) = Some rec /\
    job_status rec = "failed" /\
    job_error_message rec = Some "Ingestion task timed out".
Proof.
  destruct (C3_timeout_handled_like_any_failure (Lab.collab Lab.no_faults) Lab.env
              (Lab.attempt 1) Lab.good_id "alpha beta gamma" (Overrun 6 []) Lab.start)
    as (Hc & _ & Hk & Hid).
  - vm_compute. reflexivity.
  - split; [exact Hc|]. split.
    + apply (proj1 (Hk 1%nat eq_refl)). apply Nat.ltb_lt. vm_compute. reflexivity.
    + destruct (Hid lab_id) as (ev & Hin & Ht & Hcmd & Hread).
      * vm_compute. reflexivity.
      * destruct Hread as (rec & Hg & Hs & Hm).
        -- assert (Hall : Forall returned
                     (trace (lab_run Lab.no_faults 1 Lab.good_id "alpha beta gamma"
                               (Overrun 6 []))))
             by (apply all_returned; vm_compute; reflexivity).
           eapply Forall_forall in Hall; [exact Hall | exact Hin].
        -- apply lab_persists.
        -- exists ev, rec. split; [exact Hin|]. split; [exact Ht|].
           split; [exact Hcmd|]. split; [exact Hg|]. split; [exact Hs | exact Hm].
Defined.

Lemma C4_witness :
  outcome (lab_run Lab.no_faults 1 "not-a-uuid" "alpha beta" InTime)
  = RetryScheduled (ValueError "badly formed hexadecimal UUID string") 120.
Proof.
  refine (proj1 (proj2 (proj2 (proj2
    (C4_retry_below_max_with_backoff (Lab.collab Lab.no_faults) Lab.env
       1%nat "not-a-uuid" "alpha beta" InTime Lab.start
       (ValueError "badly formed hexadecimal UUID string") _)))) _);
    reflexivity.
Defined.

(** C5, as stated, fails: the job id "not-a-uuid" does not parse, and on
    the first attempt the task schedules a retry in 60 seconds. *)
Lemma C5_counterexample :
  UUID Lab.env "not-a-uuid"
    = Exc (ValueError "badly formed hexadecimal UUID string") /\
  outcome (lab_run Lab.no_faults 0 "not-a-uuid" "alpha beta gamma" InTime)
    = RetryScheduled (ValueError "badly formed hexadecimal UUID string") 60.
Proof. vm_compute. split; reflexivity. Qed.

Lemma C5_witness :
  Forall (fun ev => is_log (ev_cmd ev))
         (trace (lab_run Lab.no_faults 3 "not-a-uuid" "alpha beta gamma" InTime)) /\
  exists exc,
    caught_of (joined (lab_run Lab.no_faults 3 "not-a-uuid" "alpha beta gamma" InTime))
      = Some exc /\
    outcome (lab_run Lab.no_faults 3 "not-a-uuid" "alpha beta gamma" InTime)
      = retry_or_fail (Lab.attempt 3) exc /\
    (joined (lab_run Lab.no_faults 3 "not-a-uuid" "alpha beta gamma" InTime) <> None ->
     exc = ValueError "badly formed hexadecimal UUID string").
Proof.
  apply (C5_malformed_id_no_writes_but_retried (Lab.collab Lab.no_faults) Lab.env
           (Lab.attempt 3) "not-a-uuid" "alpha beta gamma" InTime Lab.start).
  vm_compute. reflexivity.
Defined.

(** C6, as stated, fails: the embedder returns two vectors for three
    chunks; nothing notices, the upsert stores two points, the job is
    written "completed" with chunk_count 3 and the task returns. *)
Lemma C6_counterexample :
  embed_calls (trace (lab_run (Lab.mk_faults false false true) 0 Lab.good_id
                        "alpha beta gamma" InTime))
    = [(["alpha"; "beta"; "gamma"],
        Val (VVectors [[PrimFloat.one]; [PrimFloat.one]]))] /\
  outcome (lab_run (Lab.mk_faults false false true) 0 Lab.good_id
             "alpha beta gamma" InTime)
    = Returned (mk_result Lab.good_id "completed" 2) /\
  option_map (fun r => (job_status r, job_chunk_count r))
    (Lab.lookup lab_id
       (Lab.jobs (world (lab_run (Lab.mk_faults false false true) 0 Lab.good_id
                           "alpha beta gamma" InTime))))
    = Some ("completed", Some 3) /\
  List.length (Lab.points
    (world (lab_run (Lab.mk_faults false false true) 0 Lab.good_id
              "alpha beta gamma" InTime))) = 2%nat.
Proof. vm_compute. repeat split; reflexivity. Qed.

(** C7, as stated, fails: the "processing" write raises; no pipeline stage
    is called afterwards, and the task schedules a retry for that error. *)
Lemma C7_counterexample :
  map (fun ev => (ev_cmd ev, ev_resp ev))
      (filter (fun ev => is_store_write (ev_cmd ev) || is_stage (ev_cmd ev))
              (trace (lab_run (Lab.mk_faults true false false) 0 Lab.good_id
                        "alpha beta gamma" InTime)))
    = [(update_job_status_sync lab_id "processing"
          (mk_fields (Some 0) None None None None), Exc Lab.db_down);
       (update_job_status_sync lab_id "failed"
          (mk_fields None None None (Some "database is unavailable")
             (Some (format_exc Lab.env Lab.db_down))), Val VNone)] /\
  outcome (lab_run (Lab.mk_faults true false false) 0 Lab.good_id
             "alpha beta gamma" InTime)
    = RetryScheduled Lab.db_down 60.
Proof. vm_compute. split; reflexivity. Qed.

Lemma C7_witness :
  Forall (fun e' => is_stage (ev_cmd e') = false)
         (trace (lab_run (Lab.mk_faults true false false) 0 Lab.good_id
                   "alpha beta gamma" InTime)) /\
  worker_end (lab_run (Lab.mk_faults true false false) 0 Lab.good_id
                "alpha beta gamma" InTime) = Exc Lab.db_down /\
  exists exc,
    caught_of (joined (lab_run (Lab.mk_faults true false false) 0 Lab.good_id
                         "alpha beta gamma" InTime)) = Some exc /\
    outcome (lab_run (Lab.mk_faults true false false) 0 Lab.good_id
               "alpha beta gamma" InTime)
      = retry_or_fail (Lab.attempt 0) exc /\
    (joined (lab_run (Lab.mk_faults true false false) 0 Lab.good_id
               "alpha beta gamma" InTime) <> None -> exc = Lab.db_down).
Proof.
  apply (C7_processing_failure_aborts (Lab.collab (Lab.mk_faults true false false))
           Lab.env (Lab.attempt 0) Lab.good_id "alpha beta gamma" InTime Lab.start
           (mk_event Worker
              (update_job_status_sync lab_id "processing"
                 (mk_fields (Some 0) None None None None))
              (Exc Lab.db_down) Lab.start)
           lab_id (mk_fields (Some 0) None None None None) Lab.db_down).
  - vm_compute. do 4 right. left. reflexivity.
  - reflexivity.
  - reflexivity.
Defined.

Lemma C8_witness :
  gave Main (logger_error "Failed to persist job failure"
               [("job_id", VStr Lab.good_id);
                ("error", VStr "database is unavailable")])
       VNone
       (trace (lab_run (Lab.mk_faults true true false) 0 Lab.good_id
                 "alpha beta gamma" InTime)) /\
  outcome (lab_run (Lab.mk_faults true true false) 0 Lab.good_id
             "alpha beta gamma" InTime)
    = retry_or_fail (Lab.attempt 0) Lab.db_down.
Proof.
  apply (C8_audit_failure_is_logged_only (Lab.collab (Lab.mk_faults true true false))
           Lab.env (Lab.attempt 0) Lab.good_id "alpha beta gamma" InTime Lab.start
           Lab.db_down
           (mk_event Main
              (update_job_status_sync lab_id "failed"
                 (mk_fields None None None (Some "database is unavailable")
                    (Some (format_exc Lab.env Lab.db_down))))
              (Exc Lab.db_down) Lab.start)
           lab_id
           (mk_fields None None None (Some "database is unavailable")
              (Some (format_exc Lab.env Lab.db_down)))
           Lab.db_down).
  - vm_compute. reflexivity.
  - vm_compute. do 6 right. left. reflexivity.
  - reflexivity.
  - reflexivity.
  - reflexivity.
Defined.

(** C9, as stated, fails: the embedder is called once for the three
    chunks, as ceil(3 / 100) says, but returns two vectors; the vector
    sequence handed to the upsert has length 2, not 3, and the task
    returns. *)
Lemma C9_counterexample :
  embed_calls (trace (lab_run (Lab.mk_faults false false true) 0 Lab.good_id
                        "alpha beta gamma" InTime))
    = [(["alpha"; "beta"; "gamma"],
        Val (VVectors [[PrimFloat.one]; [PrimFloat.one]]))] /\
  filter is_upsert_call
    (map (fun ev => ev_cmd ev)
         (trace (lab_run (Lab.mk_faults false false true) 0 Lab.good_id
                   "alpha beta gamma" InTime)))
    = [add_documents ["alpha"; "beta"; "gamma"]
         [[PrimFloat.one]; [PrimFloat.one]]
         [("source_url", "alpha beta gamma")] Lab.good_id] /\
  outcome (lab_run (Lab.mk_faults false false true) 0 Lab.good_id
             "alpha beta gamma" InTime)
    = Returned (mk_result Lab.good_id "completed" 2).
Proof. vm_compute. repeat split; reflexivity. Qed.

Lemma C9_witness :
  List.length (embed_calls (trace (lab_run Lab.no_faults 0 Lab.good_id (page 250) InTime)))
    = 3%nat /\
  List.concat (map fst (embed_calls
     (trace (lab_run Lab.no_faults 0 Lab.good_id (page 250) InTime))))
    = repeat "w" 250 /\
  List.length (repeat [PrimFloat.one] 250) = List.length (repeat "w" 250) /\
  nth 137 (repeat "w" 250) ""
    = nth 37 (nth 1 (map fst (embed_calls
                (trace (lab_run Lab.no_faults 0 Lab.good_id (page 250) InTime)))) []) "" /\
  exists resps,
    map snd (embed_calls (trace (lab_run Lab.no_faults 0 Lab.good_id (page 250) InTime)))
      = map vectors_value resps /\
    nth 137 (repeat [PrimFloat.one] 250) [] = nth 37 (nth 1 resps []) [].
Proof.
  pose proof (C9_embedding_in_batches_of_100 (Lab.collab Lab.no_faults) Lab.env
           (Lab.attempt 0) Lab.good_id (page 250) InTime Lab.start
           (nth 19 (trace (lab_run Lab.no_faults 0 Lab.good_id (page 250) InTime))
                (mk_event Main utcnow (Val VNone) Lab.start))
           (repeat "w" 250) (repeat [PrimFloat.one] 250)
           [("source_url", page 250)] Lab.good_id) as H.
  assert (H1 : In (nth 19 (trace (lab_run Lab.no_faults 0 Lab.good_id (page 250) InTime))
                       (mk_event Main utcnow (Val VNone) Lab.start))
                  (trace (lab_run Lab.no_faults 0 Lab.good_id (page 250) InTime))).
  { apply nth_In. apply Nat.ltb_lt. vm_compute. reflexivity. }
  assert (H2 : ev_cmd (nth 19 (trace (lab_run Lab.no_faults 0 Lab.good_id (page 250) InTime))
                           (mk_event Main utcnow (Val VNone) Lab.start))
               = add_documents (repeat "w" 250) (repeat [PrimFloat.one] 250)
                   [("source_url", page 250)] Lab.good_id).
  { vm_compute. reflexivity. }
  destruct (H H1 H2) as (Hn & Hc & _ & _ & resps & Hm & _ & Hpos).
  assert (Hfit : forallb answer_fits
                   (embed_calls (trace (lab_run Lab.no_faults 0 Lab.good_id (page 250) InTime)))
                 = true).
  { vm_compute. reflexivity. }
  destruct (Hpos Hfit) as [Hl Hi].
  assert (H137 : (137 < List.length (repeat "w" 250))%nat).
  { apply Nat.ltb_lt. vm_compute. reflexivity. }
  destruct (Hi 137%nat [] "" H137) as [Hiv Hic].
  split; [exact Hn|]. split; [exact Hc|]. split; [exact Hl|]. split; [exact Hic|].
  exists resps. split; [exact Hm | exact Hiv].
Defined.

Lemma C10_witness :
  exists e,
    In e (firstn 17 (trace (lab_run Lab.no_faults 2 Lab.good_id "alpha beta gamma" InTime))) /\
    ev_thread e = Worker /\
    ev_cmd e = create_collection_if_not_exists /\ returned e.
Proof.
  apply (C10_collection_ensured_before_upsert (Lab.collab Lab.no_faults) Lab.env
           (Lab.attempt 2) Lab.good_id "alpha beta gamma" InTime Lab.start
           (firstn 17 (trace (lab_run Lab.no_faults 2 Lab.good_id "alpha beta gamma" InTime)))
           (nth 17 (trace (lab_run Lab.no_faults 2 Lab.good_id "alpha beta gamma" InTime))
                (mk_event Main utcnow (Val VNone) Lab.start))
           (skipn 18 (trace (lab_run Lab.no_faults 2 Lab.good_id "alpha beta gamma" InTime)))).
  - vm_compute. reflexivity.
  - eexists _, _, _, _. vm_compute. reflexivity.
Defined.

(** * Further properties of the task *)

(** ** The order of the pipeline *)

(** Position of a call in the pipeline of [_work]: the "processing" write,
    fetch, clean, chunk, embedder set-up, embedding, store set-up, ensure
    collection, upsert, the "completed" write.  Logging, the clock and the
    "failed" write have none. *)
Definition stage_rank (c : Cmd) : option nat :=
  match c with
  | update_job_status_sync _ st _ =>
      if String.eqb st "processing" then Some 1%nat
      else if String.eqb st "completed" then Some 10%nat
      else None
  | fetch_url_content_sync _ => Some 2%nat
  | clean_html _ => Some 3%nat
  | chunk_text _ _ _ => Some 4%nat
  | GeminiEmbeddings _ _ _ => Some 5%nat
  | embed_documents _ => Some 6%nat
  | QdrantStore _ _ _ => Some 7%nat
  | create_collection_if_not_exists => Some 8%nat
  | add_documents _ _ _ _ => Some 9%nat
  | logger_info _ _ | logger_error _ _ | utcnow => None
  end.

Definition mem (r : nat) (l : list nat) : bool := existsb (Nat.eqb r) l.

(** The stages that must have returned before stage [r] is called: all
    earlier ones, except that embedding may have had no batch to embed. *)
Definition required (r : nat) : list nat :=
  filter (fun r' => negb (r' =? 6)%nat) (seq 1 (r - 1)).

(** May a call of rank [o] come next, when the stages in [done] have
    returned?  Its predecessors must be done, none of its successors, and
    it must not have been made already (embedding apart). *)
Definition may_follow (done : list nat) (o : option nat) : bool :=
  match o with
  | None => true
  | Some r =>
      forallb (fun r' => mem r' done) (required r)
      && forallb (fun d => (d <=? r)%nat) done
      && ((r =? 6)%nat || negb (mem r done))
  end.

Definition record_stage (done : list nat) (o : option nat) : list nat :=
  match o with
  | Some r => if (r =? 6)%nat then done else r :: done
  | None => done
  end.

(** [in_sequence done evs]: the calls [evs] follow the pipeline from the
    point where the stages [done] have returned, and stop at the first
    call that raises. *)
Fixpoint in_sequence {W : Type} (done : list nat) (evs : list (event W)) : Prop :=
  match evs with
  | [] => True
  | ev :: rest =>
      may_follow done (stage_rank (ev_cmd ev)) = true /\
      match ev_resp ev with
      | Val _ => in_sequence (record_stage done (stage_rank (ev_cmd ev))) rest
      | Exc _ => rest = []
      end
  end.

Section SequenceFacts.
Context {W : Type}.
Variable C : Collaborators W.
Variable env : Env.

Lemma in_sequence_batches done (loop rest : list (event W)) :
  Forall is_embed loop -> Forall returned loop ->
  may_follow done (Some 6%nat) = true ->
  in_sequence done rest -> in_sequence done (loop ++ rest).
Proof.
  intros He Hr Hm Hrest. induction loop as [|ev loop IH]; [exact Hrest|].
  inversion He as [|? ? [b Hb] He']; subst.
  inversion Hr as [|? ? [v Hv] Hr']; subst.
  simpl. rewrite Hb, Hv. cbn [stage_rank record_stage Nat.eqb].
  split; [exact Hm | apply IH; assumption].
Qed.

Lemma in_sequence_failed_batch done (ev : event W) e :
  is_embed ev -> ev_resp ev = Exc e ->
  may_follow done (Some 6%nat) = true -> in_sequence done [ev].
Proof.
  intros [b Hb] Hr Hm. simpl. rewrite Hb, Hr. cbn [stage_rank].
  split; [exact Hm | reflexivity].
Qed.

(** The worker's calls follow the pipeline. *)
Lemma work_in_sequence th jid u evs out :
  steps C th (_work env jid u) evs out -> in_sequence [] evs.
Proof.
  unfold _work. intros H. explore H.
  all: repeat first
    [ exact I
    | reflexivity
    | match goal with
      | |- in_sequence _ (_ :: _) =>
          cbn [in_sequence ev_cmd ev_resp stage_rank record_stage
               String.eqb Ascii.eqb Bool.eqb Nat.eqb]
      | |- _ /\ _ => split; [vm_compute; reflexivity|]
      | Hev : embed_events _ _ _ _ _ ?loop |- in_sequence _ (?loop ++ _) =>
          apply in_sequence_batches;
          [ eapply embed_events_are_embed; exact Hev
          | eapply embed_events_returned; exact Hev
          | vm_compute; reflexivity
          | ]
      | Hall : Forall is_embed (?pre ++ [?ev]) |- in_sequence _ (?pre ++ [?ev]) =>
          apply Forall_app in Hall; destruct Hall as [Hall1 Hall2];
          inversion Hall2; subst;
          apply in_sequence_batches;
          [ assumption | assumption | vm_compute; reflexivity
          | eapply in_sequence_failed_batch;
            [ eassumption | eassumption | vm_compute; reflexivity ] ]
      end ].
Qed.
End SequenceFacts.

Section SequenceLaws.
Context {W : Type}.

Definition done_after (done : list nat) (pre : list (event W)) : list nat :=
  fold_left (fun d ev => record_stage d (stage_rank (ev_cmd ev))) pre done.

Lemma mem_In r l : mem r l = true <-> In r l.
Proof.
  unfold mem. rewrite existsb_exists. split.
  - intros (x & Hin & Hx). apply Nat.eqb_eq in Hx. subst. exact Hin.
  - intros Hin. exists r. split; [exact Hin | apply Nat.eqb_refl].
Qed.

Lemma required_In r' r :
  In r' (required r) <-> (1 <= r' < r)%nat /\ r' <> 6%nat.
Proof.
  unfold required. rewrite filter_In, in_seq, negb_true_iff, Nat.eqb_neq. lia.
Qed.

Lemma may_follow_inv done r :
  may_follow done (Some r) = true ->
  (forall r', (1 <= r' < r)%nat -> r' <> 6%nat -> In r' done) /\
  (forall d, In d done -> (d <= r)%nat) /\
  (r = 6%nat \/ ~ In r done).
Proof.
  unfold may_follow. rewrite !andb_true_iff, !forallb_forall, orb_true_iff.
  intros [[Ha Hb] Hc]. split; [|split].
  - intros r' Hr Hn. apply mem_In, Ha, required_In. auto.
  - intros d Hd. apply Nat.leb_le, Hb, Hd.
  - destruct Hc as [Hc|Hc]; [left; apply Nat.eqb_eq, Hc|].
    right. intros Hin. apply mem_In in Hin. rewrite Hin in Hc. discriminate.
Qed.

Lemma done_after_keeps done (pre : list (event W)) x :
  In x done -> In x (done_after done pre).
Proof.
  revert done; induction pre as [|ev pre IH]; intros done Hin; [exact Hin|].
  simpl. apply IH. unfold record_stage.
  destruct (stage_rank (ev_cmd ev)) as [r|]; [|exact Hin].
  destruct (r =? 6)%nat; [exact Hin | right; exact Hin].
Qed.

Lemma done_after_records done (pre : list (event W)) ev x :
  In ev pre -> stage_rank (ev_cmd ev) = Some x -> x <> 6%nat ->
  In x (done_after done pre).
Proof.
  revert done; induction pre as [|e0 pre IH]; intros done Hin Hr Hx; [destruct Hin|].
  simpl. destruct Hin as [->|Hin].
  - apply done_after_keeps. rewrite Hr. unfold record_stage.
    apply Nat.eqb_neq in Hx. rewrite Hx. left; reflexivity.
  - eapply IH; eassumption.
Qed.

Lemma done_after_source done (pre : list (event W)) x :
  In x (done_after done pre) ->
  In x done \/ exists ev, In ev pre /\ stage_rank (ev_cmd ev) = Some x.
Proof.
  revert done; induction pre as [|e0 pre IH]; intros done Hin; [left; exact Hin|].
  simpl in Hin. apply IH in Hin. destruct Hin as [Hin|(ev & Hev & Hr)].
  - unfold record_stage in Hin.
    destruct (stage_rank (ev_cmd e0)) as [r|] eqn:Hr; [|left; exact Hin].
    destruct (r =? 6)%nat; [left; exact Hin|].
    destruct Hin as [<-|Hin]; [|left; exact Hin].
    right. exists e0. split; [left; reflexivity | exact Hr].
  - right. exists ev. split; [right; exact Hev | exact Hr].
Qed.

(** Cutting a sequence in two: what comes before a call has returned. *)
Lemma in_sequence_split done (pre suffix : list (event W)) :
  in_sequence done (pre ++ suffix) -> suffix <> [] ->
  Forall returned pre /\ in_sequence (done_after done pre) suffix.
Proof.
  revert done; induction pre as [|ev pre IH]; intros done H Hne.
  - split; [constructor | exact H].
  - simpl in H. destruct H as [_ H].
    destruct (ev_resp ev) as [v|e] eqn:Hr.
    + destruct (IH _ H Hne) as [Hall Hs]. split; [|exact Hs].
      constructor; [exists v; exact Hr | exact Hall].
    + exfalso. destruct pre; destruct suffix; simpl in H; try discriminate.
      apply Hne; reflexivity.
Qed.

Lemma in_sequence_head done (ev : event W) rest :
  in_sequence done (ev :: rest) ->
  may_follow done (stage_rank (ev_cmd ev)) = true /\
  (forall e, ev_resp ev = Exc e -> rest = []).
Proof.
  simpl. intros [Hm H]. split; [exact Hm|].
  intros e He. rewrite He in H. exact H.
Qed.

Lemma sequence_stops done (pre : list (event W)) ev post e :
  in_sequence done (pre ++ ev :: post) -> ev_resp ev = Exc e -> post = [].
Proof.
  intros H He. apply in_sequence_split in H; [|discriminate].
  destruct H as [_ H]. apply in_sequence_head in H. destruct H as [_ H].
  eapply H; exact He.
Qed.

Lemma sequence_needs (pre : list (event W)) ev post r r' :
  in_sequence [] (pre ++ ev :: post) ->
  stage_rank (ev_cmd ev) = Some r ->
  (1 <= r' < r)%nat -> r' <> 6%nat ->
  exists e', In e' pre /\ stage_rank (ev_cmd e') = Some r' /\ returned e'.
Proof.
  intros H Hr Hlt Hne. apply in_sequence_split in H; [|discriminate].
  destruct H as [Hall H]. apply in_sequence_head in H. destruct H as [Hm _].
  rewrite Hr in Hm. apply may_follow_inv in Hm. destruct Hm as [Ha _].
  specialize (Ha r' Hlt Hne). apply done_after_source in Ha.
  destruct Ha as [[]|(e' & Hin & He')].
  exists e'. split; [exact Hin|]. split; [exact He'|].
  eapply Forall_forall in Hall; eassumption.
Qed.

Lemma sequence_ordered (l1 l2 l3 : list (event W)) e1 e2 r1 r2 :
  in_sequence [] (l1 ++ e1 :: l2 ++ e2 :: l3) ->
  stage_rank (ev_cmd e1) = Some r1 ->
  stage_rank (ev_cmd e2) = Some r2 ->
  (r1 < r2)%nat \/ (r1 = 6%nat /\ r2 = 6%nat).
Proof.
  intros H H1 H2.
  pose proof H as H'.
  apply in_sequence_split in H'; [|discriminate]. destruct H' as [_ Hat1].
  apply in_sequence_head in Hat1. destruct Hat1 as [Hm1 _].
  rewrite H1 in Hm1. apply may_follow_inv in Hm1. destruct Hm1 as [Ha1 _].
  change (l1 ++ e1 :: l2 ++ e2 :: l3) with (l1 ++ (e1 :: l2) ++ e2 :: l3) in H.
  rewrite app_assoc in H.
  apply in_sequence_split in H; [|discriminate]. destruct H as [_ Hat2].
  apply in_sequence_head in Hat2. destruct Hat2 as [Hm2 _].
  rewrite H2 in Hm2. apply may_follow_inv in Hm2. destruct Hm2 as (_ & Hb2 & Hc2).
  set (D := done_after [] (l1 ++ e1 :: l2)) in *.
  assert (Hkeep : forall x, In x (done_after [] l1) -> In x D).
  { intros x Hx. unfold D, done_after. rewrite fold_left_app.
    apply (done_after_keeps (done_after [] l1) (e1 :: l2)). exact Hx. }
  destruct (Nat.eq_dec r1 6) as [->|Hn1].
  - destruct (Nat.eq_dec r2 6) as [->|Hn2]; [right; split; reflexivity|].
    left. destruct (le_lt_dec r2 5) as [Hle|Hgt]; [|lia].
    exfalso. destruct (Nat.eq_dec r2 0) as [->|Hz].
    + assert (Hin : In 1%nat D) by (apply Hkeep, Ha1; lia).
      apply Hb2 in Hin. lia.
    + assert (Hin : In r2 D) by (apply Hkeep, Ha1; lia).
      destruct Hc2 as [Hc2|Hc2]; [lia | exact (Hc2 Hin)].
  - assert (Hin : In r1 D).
    { unfold D. eapply done_after_records; [|exact H1 | exact Hn1].
      apply in_or_app. right; left; reflexivity. }
    left. pose proof (Hb2 _ Hin) as Hle.
    destruct (Nat.eq_dec r1 r2) as [->|Hne]; [|lia].
    exfalso. destruct Hc2 as [Hc2|Hc2]; [lia | exact (Hc2 Hin)].
Qed.
End SequenceLaws.

Ltac raised_leaf :=
  repeat first
    [ apply Forall_nil
    | apply Forall_cons;
      [ cbn [ev_resp];
        let Hx := fresh "Hx" in
        intros ? Hx; first [ discriminate Hx | inversion Hx; subst; reflexivity ]
      | ]
    | match goal with
      | Hpre : Forall (fun e' => exists v, ev_resp e' = Val v) ?pre
        |- Forall _ (?pre ++ [?ev]) =>
          apply Forall_app; split;
          [ eapply Forall_impl; [| exact Hpre];
            let Hv := fresh in let Hx := fresh in
            intros ? [? Hv] ? Hx; rewrite Hv in Hx; discriminate Hx
          | apply Forall_cons; [| apply Forall_nil];
            let Hx := fresh in
            intros ? Hx;
            match goal with
            | Hr : ev_resp ev = Exc _ |- _ =>
                rewrite Hr in Hx; inversion Hx; subst; reflexivity
            end ]
      | Hev : embed_events _ _ _ _ _ ?loop |- Forall _ (?loop ++ _) =>
          apply Forall_app; split;
          [ eapply Forall_impl; [| eapply embed_events_returned; exact Hev];
            let Hv := fresh in let Hx := fresh in
            intros ? [? Hv] ? Hx; rewrite Hv in Hx; discriminate Hx
          | ]
      end ].

Section OrderClaims.
Context {W : Type}.
Variable C : Collaborators W.
Variable env : Env.

Local Abbreviation run_of self job_id url sch w :=
  (process_url_ingestion C env self job_id url sch w).

(** A call of the worker that raises is what the worker ends with. *)
Lemma work_raise_ends th jid u evs out :
  steps C th (_work env jid u) evs out ->
  Forall (fun ev => forall e, ev_resp ev = Exc e -> out = Exc e) evs.
Proof.
  unfold _work. intros H. explore H.
  all: repeat match goal with
              | Heq : Exc _ = Exc _ |- _ => inversion Heq; subst; clear Heq
              end.
  all: raised_leaf.
Qed.

Lemma main_call_unranked c : main_call c -> stage_rank c = None.
Proof.
  intros [(m & x & ->)|[(m & x & ->)|(id & f & ->)]]; reflexivity.
Qed.

Lemma ranked_by_worker self job_id url sch w ev r :
  In ev (trace (run_of self job_id url sch w)) ->
  stage_rank (ev_cmd ev) = Some r -> ev_thread ev = Worker.
Proof.
  intros Hin Hr. apply in_view in Hin.
  destruct (ev_thread ev); [|reflexivity].
  exfalso. pose proof (run_main_calls C env self job_id url sch w) as Hm.
  eapply Forall_forall in Hm; [|exact Hin].
  apply main_call_unranked in Hm. congruence.
Qed.

Lemma view_worker_split (tr pre post : list (event W)) ev :
  tr = pre ++ ev :: post -> ev_thread ev = Worker ->
  view Worker tr = view Worker pre ++ ev :: view Worker post.
Proof.
  intros -> Ht. rewrite view_app. unfold view at 2. simpl. rewrite Ht. reflexivity.
Qed.

Lemma view_empty th (l : list (event W)) :
  view th l = [] -> Forall (fun e => ev_thread e <> th) l.
Proof.
  intros H. apply Forall_forall. intros e Hin Ht.
  apply in_view in Hin. rewrite Ht, H in Hin. destruct Hin.
Qed.

Lemma worker_in_sequence self job_id url sch w :
  in_sequence [] (view Worker (trace (run_of self job_id url sch w))).
Proof.
  eapply work_in_sequence. apply (run_sound C env self job_id url sch w).
Qed.

(** X1: the worker stops at its first call that raises: it makes no call
    after it and ends with that exception. *)
Theorem X1_worker_stops_at_first_raise self job_id url sch w pre ev post e :
  trace (run_of self job_id url sch w) = pre ++ ev :: post ->
  ev_thread ev = Worker ->
  ev_resp ev = Exc e ->
  all_of Main post /\
  worker_end (run_of self job_id url sch w) = Exc e.
Proof.
  intros Htr Ht He. unfold all_of.
  pose proof (worker_in_sequence self job_id url sch w) as Hs.
  rewrite (view_worker_split _ _ _ _ Htr Ht) in Hs.
  apply (sequence_stops _ _ _ _ _ Hs) in He as Hpost.
  split.
  - apply view_empty in Hpost. eapply Forall_impl; [|exact Hpost].
    intros a Ha. simpl in Ha.
    destruct (ev_thread a); [reflexivity | exfalso; apply Ha; reflexivity].
  - pose proof (work_raise_ends _ _ _ _ _
                  (proj1 (proj2 (run_sound C env self job_id url sch w)))) as Hall.
    eapply Forall_forall in Hall; [apply Hall; exact He|].
    rewrite (view_worker_split _ _ _ _ Htr Ht).
    apply in_or_app. right; left; reflexivity.
Qed.

(** X2: a stage is called only after every earlier stage of the pipeline
    has been called and has returned (embedding apart, which has no call
    when there is nothing to embed). *)
Theorem X2_stage_needs_earlier_stages self job_id url sch w pre ev post r r' :
  trace (run_of self job_id url sch w) = pre ++ ev :: post ->
  stage_rank (ev_cmd ev) = Some r ->
  (1 <= r' < r)%nat -> r' <> 6%nat ->
  exists e', In e' pre /\ ev_thread e' = Worker /\
             stage_rank (ev_cmd e') = Some r' /\ returned e'.
Proof.
  intros Htr Hr Hlt Hne.
  assert (Ht : ev_thread ev = Worker).
  { eapply ranked_by_worker; [|exact Hr]. rewrite Htr.
    apply in_or_app. right; left; reflexivity. }
  pose proof (worker_in_sequence self job_id url sch w) as Hs.
  rewrite (view_worker_split _ _ _ _ Htr Ht) in Hs.
  destruct (sequence_needs _ _ _ _ _ Hs Hr Hlt Hne) as (e' & Hin & Hr' & Hret).
  apply view_in in Hin. destruct Hin as [Hin Ht'].
  exists e'. auto.
Qed.

(** X3: the stages of one run come in pipeline order, and no stage but
    embedding is called twice. *)
Theorem X3_stages_in_order_once self job_id url sch w l1 e1 l2 e2 l3 r1 r2 :
  trace (run_of self job_id url sch w) = l1 ++ e1 :: l2 ++ e2 :: l3 ->
  stage_rank (ev_cmd e1) = Some r1 ->
  stage_rank (ev_cmd e2) = Some r2 ->
  (r1 < r2)%nat \/ (r1 = 6%nat /\ r2 = 6%nat).
Proof.
  intros Htr H1 H2.
  assert (Ht1 : ev_thread e1 = Worker).
  { eapply ranked_by_worker; [|exact H1]. rewrite Htr.
    apply in_or_app. right; left; reflexivity. }
  assert (Ht2 : ev_thread e2 = Worker).
  { eapply ranked_by_worker; [|exact H2]. rewrite Htr.
    apply in_or_app. right; right. apply in_or_app. right; left; reflexivity. }
  pose proof (worker_in_sequence self job_id url sch w) as Hs.
  rewrite (view_worker_split _ _ _ _ Htr Ht1) in Hs.
  rewrite (view_worker_split (l2 ++ e2 :: l3) _ _ _ eq_refl Ht2) in Hs.
  eapply sequence_ordered; eassumption.
Qed.
End OrderClaims.

(** ** What each stage is called with *)

Section FlowFacts.
Context {W : Type}.
Variable C : Collaborators W.
Variable env : Env.

(** Every batch the loop embeds is the slice of [chunks] at one of the
    indices it runs through. *)
Lemma embed_batches_slices th chunks starts acc evs out :
  steps C th (embed_batches chunks starts acc) evs out ->
  Forall (fun ev : event W =>
            exists i, In i starts /\
                      ev_cmd ev = embed_documents (slice chunks i (i + batch_size)))
         evs.
Proof.
  revert acc evs; induction starts as [|i starts IH]; intros acc evs H.
  - simpl in H. destruct H as [-> _]. constructor.
  - cbn [embed_batches] in H. next_call H. subst evs.
    constructor; [exists i; split; [left; reflexivity | reflexivity]|].
    destruct r as [vs|e]; cbn [steps bind call of_res] in H.
    + apply IH in H. eapply Forall_impl; [|exact H].
      intros ev (j & Hj & Hc). exists j. split; [right; exact Hj | exact Hc].
    + destruct H as [-> _]. constructor.
Qed.

(** Where the arguments of a call come from: the task's own arguments and
    settings, or what the stage before returned. *)
Definition fed_by (th : Thread) (job_id url : string) (evs : list (event W))
    (ev : event W) : Prop :=
  match ev_cmd ev with
  | update_job_status_sync id _ _ => UUID env job_id = Val id
  | fetch_url_content_sync u => u = url
  | clean_html html => gave th (fetch_url_content_sync url) (VStr html) evs
  | chunk_text text sz ov =>
      sz = CHUNK_SIZE (settings env) /\ ov = CHUNK_OVERLAP (settings env) /\
      exists html, gave th (clean_html html) (VStr text) evs
  | GeminiEmbeddings k m d =>
      k = GOOGLE_API_KEY (settings env) /\ m = EMBEDDING_MODEL (settings env) /\
      d = EMBEDDING_DIMENSIONS (settings env)
  | embed_documents batch =>
      exists text chunks i,
        gave th (chunk_text text (CHUNK_SIZE (settings env))
                   (CHUNK_OVERLAP (settings env))) (VStrs chunks) evs /\
        In i (range 0 (List.length chunks) batch_size) /\
        batch = slice chunks i (i + batch_size)
  | QdrantStore h p n =>
      h = QDRANT_HOST (settings env) /\ p = QDRANT_PORT (settings env) /\
      n = QDRANT_COLLECTION (settings env)
  | add_documents chunks vectors md j =>
      md = [("source_url", url)] /\ j = job_id /\
      exists text,
        gave th (chunk_text text (CHUNK_SIZE (settings env))
                   (CHUNK_OVERLAP (settings env))) (VStrs chunks) evs
  | logger_info _ _ | logger_error _ _ | utcnow | create_collection_if_not_exists =>
      True
  end.

Lemma fed_by_more th job_id url (evs evs' : list (event W)) ev :
  (forall c v, gave th c v evs -> gave th c v evs') ->
  fed_by th job_id url evs ev -> fed_by th job_id url evs' ev.
Proof.
  intros Hsub. unfold fed_by. destruct (ev_cmd ev); auto.
  - intros (H1 & H2 & html & H3). eauto 6.
  - intros (text & chunks & i & H1 & H2 & H3). eauto 8.
  - intros (H1 & H2 & text & H3). eauto 6.
Qed.
End FlowFacts.

Ltac loop_case_slices H :=
  match type of H with
  | steps _ _ (bind (embed_batches _ _ _) _) _ _ =>
      let evs1 := fresh "loop" in
      let r := fresh "r" in
      let Hloop := fresh "Hloop" in
      let Hsl := fresh "Hsl" in
      apply steps_bind in H; destruct H as (evs1 & r & Hloop & H);
      pose proof (embed_batches_slices _ _ _ _ _ _ _ Hloop) as Hsl;
      apply embed_batches_steps in Hloop;
      destruct r as [?vectors|?e];
      [ let evs2 := fresh "evs" in
        let He := fresh "He" in
        let resps := fresh "resps" in
        let Hev := fresh "Hev" in
        let Hv := fresh "Hv" in
        destruct H as (evs2 & He & H);
        destruct Hloop as (resps & Hev & Hv); simpl in Hv
      | let pre := fresh "pre" in
        let ev := fresh "ev" in
        let Hall := fresh "Hall" in
        let Hr := fresh "Hr" in
        let Hpre := fresh "Hpre" in
        destruct H as [? ?];
        destruct Hloop as (pre & ev & ? & Hall & Hr & Hpre) ];
      subst
  end.

Ltac explore_slices H :=
  repeat first [ work_call H | uuid_case H | loop_case_slices H ];
  try (cbn [steps] in H; destruct H as [? ?]; subst).

Ltac fed_goal :=
  repeat match goal with
         | |- _ /\ _ => split
         | |- exists _, _ => eexists
         | |- gave _ _ _ _ => unfold gave
         end;
  first [ exact I | reflexivity | eassumption | find_event ].

Section FlowClaims.
Context {W : Type}.
Variable C : Collaborators W.
Variable env : Env.

Local Abbreviation run_of self job_id url sch w :=
  (process_url_ingestion C env self job_id url sch w).

Lemma work_fed th jid u evs out :
  steps C th (_work env jid u) evs out ->
  Forall (fed_by env th jid u evs) evs.
Proof.
  unfold _work. intros H. explore_slices H.
  all: repeat first
    [ apply Forall_nil
    | apply Forall_cons; [cbn [fed_by ev_cmd]; fed_goal|]
    | match goal with
      | Hsl : Forall _ ?l |- Forall _ (?l ++ _) =>
          apply Forall_app; split;
          [ eapply Forall_impl; [| exact Hsl];
            let Hi := fresh in let Hc := fresh in
            intros ? (? & Hi & Hc); unfold fed_by; rewrite Hc;
            eexists _, _, _; split; [unfold gave; eexists; find_event|];
            split; [exact Hi | reflexivity]
          | ]
      | Hsl : Forall _ ?l |- Forall _ ?l =>
          eapply Forall_impl; [| exact Hsl];
          let Hi := fresh in let Hc := fresh in
          intros ? (? & Hi & Hc); unfold fed_by; rewrite Hc;
          eexists _, _, _; split; [unfold gave; eexists; find_event|];
          split; [exact Hi | reflexivity]
      end ].
Qed.

(** X4: every call of a run gets its arguments from the task's arguments
    and settings or from the stage before: the page fetched is the task's
    URL, the text cleaned is the page fetched, the text chunked is the
    text cleaned (with the configured size and overlap), every batch
    embedded is a slice of the chunks at a multiple of 100, the upsert
    carries the source URL and the job id, and every status write is for
    the parsed job id. *)
Theorem X4_each_stage_fed_by_the_previous self job_id url sch w ev :
  In ev (trace (run_of self job_id url sch w)) ->
  fed_by env Worker job_id url (trace (run_of self job_id url sch w)) ev.
Proof.
  intros Hin. apply in_view in Hin. destruct (ev_thread ev) eqn:Ht.
  - destruct (run_main C env self job_id url sch w) as (w0 & rest & Hv & H).
    rewrite Hv in Hin. unfold fed_by.
    destruct Hin as [<-|Hin]; [exact I|].
    destruct (caught_of (joined _)) as [exc|].
    + destruct H as [_ (wl & audit & tail & -> & Ha & Htail)].
      destruct Hin as [<-|Hin]; [exact I|].
      apply in_app_or in Hin. destruct Hin as [Hin|Hin].
      * unfold audit_events in Ha. destruct (UUID env job_id) as [id|e2].
        -- destruct Ha as (wa & r & wb & _ & Ha). destruct r as [a|e2].
           ++ subst audit. destruct Hin as [<-|[]]. reflexivity.
           ++ destruct Ha as (wc & ->).
              destruct Hin as [<-|[<-|[]]]; [reflexivity | exact I].
        -- destruct Ha as (wx & ->). destruct Hin as [<-|[]]. exact I.
      * unfold retry_events in Htail.
        destruct (retries_of self <? max_retries self)%nat.
        -- destruct Htail as (wx & ->). destruct Hin as [<-|[]]. exact I.
        -- subst tail. destruct Hin.
    + destruct H as (result & w1 & _ & _ & ->). destruct Hin as [<-|[]]. exact I.
  - pose proof (work_fed _ _ _ _ _
                  (proj1 (proj2 (run_sound C env self job_id url sch w)))) as Hall.
    eapply Forall_forall in Hall; [|exact Hin].
    eapply fed_by_more; [|exact Hall].
    intros c v [wx Hx]. exists wx. eapply view_in. exact Hx.
Qed.
End FlowClaims.

(** ** Batches, attempts and the handler *)

Lemma range_fuel_nth (step : nat) :
  (0 < step)%nat ->
  forall fuel start stop k d,
    (k < List.length (range_fuel fuel start stop step))%nat ->
    nth k (range_fuel fuel start stop step) d = (start + k * step)%nat.
Proof.
  intros Hstep. induction fuel as [|fuel IH]; intros start stop k d Hk.
  - simpl in Hk. lia.
  - simpl in *. destruct (start <? stop)%nat; [|simpl in Hk; lia].
    destruct k as [|k]; simpl; [lia|].
    simpl in Hk. rewrite IH by lia. lia.
Qed.

Lemma slice_full_length {A : Type} (l : list A) (i : nat) :
  List.length (slice l i (i + batch_size))
  = Nat.min batch_size (List.length l - i).
Proof.
  unfold slice. replace (i + batch_size - i)%nat with batch_size by lia.
  rewrite length_firstn, length_skipn. reflexivity.
Qed.

Lemma batches_of_nth (chunks : list string) (k : nat) :
  (k < List.length (batches_of chunks))%nat ->
  nth k (batches_of chunks) [] = slice chunks (100 * k) (100 * k + 100).
Proof.
  unfold batches_of. rewrite length_map. intros Hk.
  rewrite (nth_indep _ [] (slice chunks 0 (0 + batch_size)))
    by (rewrite length_map; exact Hk).
  rewrite (map_nth (fun i => slice chunks i (i + batch_size))).
  unfold range in *. rewrite (range_fuel_nth batch_size) by (unfold batch_size; lia || exact Hk).
  unfold batch_size. simpl. replace (k * 100)%nat with (100 * k)%nat by lia.
  reflexivity.
Qed.

(** With no chunks there is no index to take a slice at. *)
Lemma no_slices {W : Type} (chunks : list string) (l : list (event W)) :
  Forall (fun ev : event W =>
            exists i, In i (range 0 (List.length (@nil string)) batch_size) /\
                      ev_cmd ev = embed_documents (slice chunks i (i + batch_size))) l ->
  l = [].
Proof.
  destruct l as [|ev l]; [reflexivity|].
  intros H. inversion H as [|? ? (i & [] & _) _].
Qed.

Section MoreClaims.
Context {W : Type}.
Variable C : Collaborators W.
Variable env : Env.

Local Abbreviation run_of self job_id url sch w :=
  (process_url_ingestion C env self job_id url sch w).

(** The embedder calls of a run that reached the upsert of [chunks]. *)
Lemma run_batched self job_id url sch w ev chunks vectors md j :
  In ev (trace (run_of self job_id url sch w)) ->
  ev_cmd ev = add_documents chunks vectors md j ->
  batched chunks vectors (trace (run_of self job_id url sch w)).
Proof.
  intros Hin Hc.
  apply (in_worker_view C env _ _ _ _ _
           (fun c => exists a1 a2 a3 a4, c = add_documents a1 a2 a3 a4)) in Hin;
    [|eexists _, _, _, _; exact Hc | apply main_call_not_upsert].
  pose proof (work_batches C env _ _ _ _ _
                (proj1 (proj2 (run_sound C env self job_id url sch w)))) as Hall.
  eapply Forall_forall in Hall; [|exact Hin].
  destruct (Hall _ _ _ _ Hc) as [(resps & Hcalls & Hlen & Hvec) _].
  rewrite <- embed_calls_threads in Hcalls.
  2:{ eapply Forall_impl; [|apply (run_main_calls C env self job_id url sch w)].
      intros a Ha. apply main_call_not_stage, Ha. }
  exists resps. auto.
Qed.

(** When the chunker returns no chunks, the loop makes no call, and a
    worker none of whose calls raises goes on to upsert the empty lists
    and returns. *)
Lemma work_no_chunks th jid u evs out :
  steps C th (_work env jid u) evs out ->
  Forall (fun ev => forall text sz ov,
            ev_cmd ev = chunk_text text sz ov -> ev_resp ev = Val (VStrs []) ->
            embed_calls evs = [] /\
            (Forall returned evs ->
             exists added,
               gave th (add_documents [] [] [("source_url", u)] jid) (VInt added) evs /\
               out = Val (mk_result jid "completed" added))) evs.
Proof.
  unfold _work. intros H. explore_slices H.
  all: apply Forall_forall; intros ev0 Hin text sz ov Hc Hx.
  all: repeat match goal with
    | Hsl : Forall _ ?l, Hin : In _ ?l |- _ =>
        exfalso; eapply Forall_forall in Hsl; [|exact Hin];
        destruct Hsl as (? & _ & Hsl); rewrite Hsl in Hc; discriminate Hc
    | Hin : In _ (_ :: _) |- _ =>
        destruct Hin as [<-|Hin]; [cbn [ev_cmd ev_resp] in Hc, Hx; try discriminate | ]
    | Hin : In _ [] |- _ => destruct Hin
    | Hin : In _ (_ ++ _) |- _ => apply in_app_or in Hin; destruct Hin as [Hin|Hin]
    end.
  all: inversion Hx; subst; clear Hx.
  all: try match goal with
           | Hsl : Forall _ _ |- _ => apply no_slices in Hsl
           end.
  all: try match goal with
           | Hsl : _ ++ [_] = [] |- _ => destruct (app_cons_not_nil _ _ _ (eq_sym Hsl))
           end.
  all: subst.
  all: split; [reflexivity|].
  all: intros Hret.
  all: try (exfalso; eapply raised_not_returned; [|exact Hret]; find_raised; fail).
  destruct resps as [|r resps]; [|simpl in Hev; contradiction].
  eexists. split; [eexists; find_event | reflexivity].
Qed.

(** X5: when the chunker returns an empty list, the embedder is never
    called; and when none of the worker's calls raises, the upsert is made
    all the same, with no chunks and no vectors, and the worker returns
    the "completed" result with the count the store gave for it. *)
Theorem X5_no_chunks_no_embedding self job_id url sch w ev text sz ov :
  In ev (trace (run_of self job_id url sch w)) ->
  ev_cmd ev = chunk_text text sz ov ->
  ev_resp ev = Val (VStrs []) ->
  embed_calls (trace (process_url_ingestion C env self job_id url sch w)) = [] /\
  (Forall returned (view Worker (trace (run_of self job_id url sch w))) ->
   exists added,
     gave Worker (add_documents [] [] [("source_url", url)] job_id) (VInt added)
          (trace (run_of self job_id url sch w)) /\
     worker_end (run_of self job_id url sch w)
       = Val (mk_result job_id "completed" added)).
Proof.
  intros Hin Hc Hx.
  apply (in_worker_view C env _ _ _ _ _
           (fun c => exists a1 a2 a3, c = chunk_text a1 a2 a3)) in Hin;
    [|eexists _, _, _; exact Hc
     | intros c [(m & x & ->)|[(m & x & ->)|(id & f & ->)]] (a1 & a2 & a3 & H);
       discriminate].
  pose proof (work_no_chunks _ _ _ _ _
                (proj1 (proj2 (run_sound C env self job_id url sch w)))) as Hall.
  eapply Forall_forall in Hall; [|exact Hin].
  destruct (Hall _ _ _ Hc Hx) as [Hcalls Hup].
  split.
  - rewrite (embed_calls_threads (trace (run_of self job_id url sch w))); [exact Hcalls|].
    eapply Forall_impl; [|apply (run_main_calls C env self job_id url sch w)].
    intros a Ha. apply main_call_not_stage, Ha.
  - intros Hret. destruct (Hup Hret) as (added & [wx Hg] & Ho).
    exists added. split; [|exact Ho].
    exists wx. eapply view_in. exact Hg.
Qed.

(** X6: the k-th batch sent to the embedder is [chunks[100k : 100k + 100]];
    it holds 100 chunks, or what is left of the list when that is less. *)
Theorem X6_batch_k_is_slice_at_100k self job_id url sch w ev chunks vectors md j k :
  In ev (trace (run_of self job_id url sch w)) ->
  ev_cmd ev = add_documents chunks vectors md j ->
  (k < List.length (embed_calls (trace (run_of self job_id url sch w))))%nat ->
  nth k (map fst (embed_calls (trace (run_of self job_id url sch w)))) []
    = slice chunks (100 * k) (100 * k + 100) /\
  List.length (nth k (map fst (embed_calls (trace (run_of self job_id url sch w)))) [])
    = Nat.min 100 (List.length chunks - 100 * k).
Proof.
  intros Hin Hc Hk.
  destruct (run_batched _ _ _ _ _ _ _ _ _ _ Hin Hc) as (resps & Hcalls & Hlen & _).
  assert (Hlen' : List.length (map vectors_value resps) = List.length (batches_of chunks))
    by (rewrite length_map; exact Hlen).
  rewrite Hcalls in *. rewrite (combine_fst _ _ Hlen').
  rewrite length_combine, Hlen', Nat.min_id in Hk.
  rewrite (batches_of_nth _ _ Hk). split; [reflexivity|].
  apply (slice_full_length chunks (100 * k)).
Qed.

(** X7: a task object without [request], or whose request has no
    [retries], counts as attempt 0: its failure is retried after 60
    seconds if any retry is allowed, and re-raised otherwise. *)
Theorem X7_missing_counter_is_attempt_zero self job_id url sch w exc :
  (task_request self = None \/
   exists req, task_request self = Some req /\ request_retries req = None) ->
  caught_of (joined (run_of self job_id url sch w)) = Some exc ->
  ((0 < max_retries self)%nat ->
   outcome (run_of self job_id url sch w) = RetryScheduled exc 60) /\
  (max_retries self = 0%nat ->
   outcome (run_of self job_id url sch w) = Failed exc).
Proof.
  intros Hreq Hc.
  destruct (run_main C env self job_id url sch w) as (w0 & rest & _ & H).
  rewrite Hc in H. destruct H as [Ho _]. rewrite Ho. unfold decide.
  assert (H0 : retries_of self = 0%nat).
  { unfold retries_of. destruct Hreq as [->|(req & -> & ->)]; reflexivity. }
  rewrite H0. split.
  - intros Hm. apply Nat.ltb_lt in Hm. rewrite Hm. reflexivity.
  - intros ->. reflexivity.
Qed.

(** X8: the countdown doubles from one attempt to the next and is never
    below 60 seconds. *)
Theorem X8_backoff_doubles self self' job_id url sch w sch' w' exc exc' :
  caught_of (joined (run_of self job_id url sch w)) = Some exc ->
  caught_of (joined (run_of self' job_id url sch' w')) = Some exc' ->
  retries_of self' = S (retries_of self) ->
  (retries_of self' < max_retries self')%nat ->
  (retries_of self < max_retries self)%nat ->
  exists d,
    outcome (run_of self job_id url sch w) = RetryScheduled exc d /\
    outcome (run_of self' job_id url sch' w') = RetryScheduled exc' (2 * d) /\
    60 <= d.
Proof.
  intros Hc Hc' Hs Hlt' Hlt.
  destruct (run_main C env self job_id url sch w) as (w0 & rest & _ & H).
  destruct (run_main C env self' job_id url sch' w') as (w0' & rest' & _ & H').
  rewrite Hc in H. rewrite Hc' in H'.
  destruct H as [Ho _]. destruct H' as [Ho' _]. rewrite Ho, Ho'. unfold decide.
  apply Nat.ltb_lt in Hlt, Hlt'. rewrite Hlt, Hlt'.
  exists (countdown_of (retries_of self)). split; [reflexivity|].
  unfold countdown_of. rewrite Hs. split.
  - f_equal. rewrite Nat2Z.inj_succ, Z.pow_succ_r by lia. lia.
  - assert (0 < 2 ^ Z.of_nat (retries_of self)) by (apply Z.pow_pos_nonneg; lia).
    lia.
Qed.

Lemma retry_or_fail_not_returned self exc result :
  decide self exc <> Returned result.
Proof. unfold decide. destruct (_ <? _)%nat; discriminate. Qed.

(** X9: the task returns a record exactly when the join found the worker
    finished with one; the record carries the job id as given and status
    "completed", and in such a run the main thread does nothing but log. *)
Theorem X9_returns_only_the_workers_result self job_id url sch w result :
  (outcome (process_url_ingestion C env self job_id url sch w) = Returned result <->
   joined (run_of self job_id url sch w) = Some (Val result)) /\
  (outcome (run_of self job_id url sch w) = Returned result ->
   result_job_id result = job_id /\ result_status result = "completed" /\
   Forall (fun ev => ev_thread ev = Main -> exists m x, ev_cmd ev = logger_info m x)
          (trace (run_of self job_id url sch w))).
Proof.
  destruct (run_main C env self job_id url sch w) as (w0 & rest & Hv & H).
  assert (Hiff : outcome (run_of self job_id url sch w) = Returned result ->
                 joined (run_of self job_id url sch w) = Some (Val result) /\
                 rest = rest /\ caught_of (joined (run_of self job_id url sch w)) = None).
  { intros Ho. destruct (caught_of (joined _)) as [exc|] eqn:Hc.
    - destruct H as [Ho' _]. rewrite Ho' in Ho.
      exfalso. exact (retry_or_fail_not_returned _ _ _ Ho).
    - destruct H as (result' & w1 & Hj & Ho' & _). rewrite Ho' in Ho.
      inversion Ho; subst. auto. }
  split; [split|].
  - intros Ho. apply Hiff, Ho.
  - intros Hj. rewrite Hj in H. simpl in H.
    destruct H as (result' & w1 & Hr & Ho & _). congruence.
  - intros Ho. destruct (Hiff Ho) as (Hj & _ & Hc).
    pose proof (joined_worker_end C env self job_id url sch w _ Hj) as Hw.
    pose proof (proj1 (proj2 (run_sound C env self job_id url sch w))) as Hs.
    rewrite Hw in Hs. apply work_success in Hs.
    destruct Hs as (id' & html & text & chunks & vectors & added & tc & pre
                    & wa & wb & _ & _ & _ & _ & _ & _ & _ & _ & ->).
    split; [reflexivity|]. split; [reflexivity|].
    rewrite Hc in H. destruct H as (result' & w1 & _ & _ & ->).
    apply Forall_forall. intros ev Hin Ht.
    apply in_view in Hin. rewrite Ht, Hv in Hin.
    destruct Hin as [<-|[<-|[]]]; eexists _, _; reflexivity.
Qed.

Definition is_status_write (c : Cmd) : bool :=
  match c with
  | update_job_status_sync _ _ _ => true
  | _ => false
  end.

(** X10: when the handler runs and the job id parses, the main thread
    makes exactly one status write: "failed", with [str(exc)] as error
    message and the formatted traceback. *)
Theorem X10_handler_writes_failed_once self job_id url sch w exc id :
  caught_of (joined (run_of self job_id url sch w)) = Some exc ->
  UUID env job_id = Val id ->
  map ev_cmd (filter (fun ev => is_status_write (ev_cmd ev))
                     (view Main (trace (run_of self job_id url sch w))))
  = [update_job_status_sync id "failed"
       (mk_fields None None None (Some (exn_str exc)) (Some (format_exc env exc)))].
Proof.
  intros Hc HU.
  destruct (run_main C env self job_id url sch w) as (w0 & rest & -> & H).
  rewrite Hc in H. destruct H as [_ (wl & audit & tail & -> & Ha & Htail)].
  unfold audit_events in Ha. rewrite HU in Ha.
  destruct Ha as (wa & r & wb & _ & Ha).
  assert (Htl : filter (fun ev : event W => is_status_write (ev_cmd ev)) tail = []).
  { unfold retry_events in Htail.
    destruct (retries_of self <? max_retries self)%nat.
    - destruct Htail as (wx & ->). reflexivity.
    - subst tail. reflexivity. }
  simpl. rewrite filter_app, Htl, app_nil_r.
  destruct r as [a|e2].
  - subst audit. reflexivity.
  - destruct Ha as (wc & ->). reflexivity.
Qed.

(** X11: after a failure that the join saw (the worker ended with [e] in
    time), once the handler's write has returned the job reads back as
    "failed" with [str(e)] as its error message, whether or not a retry
    follows. *)
Theorem X11_failed_attempt_reads_back_failed self job_id url sch w e id :
  joined (run_of self job_id url sch w) = Some (Exc e) ->
  UUID env job_id = Val id ->
  store_persists C ->
  (forall ev, In ev (trace (run_of self job_id url sch w)) ->
              ev_thread ev = Main -> returned ev) ->
  exists rec,
    get_job_by_id_sync C id (world (run_of self job_id url sch w)) = Some rec /\
    job_status rec = "failed" /\
    job_error_message rec = Some (exn_str e).
Proof.
  intros Hj HU Hstore Hok.
  destruct (run_joined C env self job_id url sch w _ Hj)
    as (e0 & t1 & t2 & w1 & om & Htr & _ & _ & _ & Hsm & Ham & Hh2 & _ & _ & _).
  apply after_join_steps in Hsm. simpl in Hsm.
  destruct Hsm as [_ (wl & audit & tail & -> & Ha & Htail)].
  unfold audit_events in Ha. rewrite HU in Ha.
  destruct Ha as (wa & r & wb & _ & Ha).
  assert (Hin : forall ev, In ev audit -> returned ev).
  { intros ev Hev.
    assert (Hev' : In ev (mk_event Main (log_task_failed env job_id e) (Val VNone) wl
                           :: audit ++ tail))
      by (right; apply in_or_app; left; exact Hev).
    apply Hok.
    - rewrite Htr. right. apply in_or_app. right. exact Hev'.
    - eapply Forall_forall in Ham; [exact Ham | exact Hev']. }
  destruct r as [[]|e2].
  2:{ exfalso. destruct Ha as (wc & ->).
      destruct (Hin _ (or_introl eq_refl)) as [v Hv]. discriminate. }
  subst audit. simpl in Hh2.
  destruct Hh2 as [(r0 & Hp0 & _) [(r1 & Hp1 & Hr1) Hrest]].
  simpl in Hp0. inversion Hp0; subst; clear Hp0.
  simpl in Hp1, Hr1.
  destruct r1 as [[]|ex]; [|discriminate].
  assert (Hw : world (run_of self job_id url sch w) = wb).
  { unfold retry_events in Htail.
    destruct (retries_of self <? max_retries self)%nat.
    - destruct Htail as (wx & ->). simpl in Hrest.
      destruct Hrest as [(r2 & Hp2 & _) ->]. inversion Hp2; reflexivity.
    - subst tail. simpl in Hrest. exact Hrest. }
  destruct (Hstore _ _ _ _ _ Hp1) as (rec & Hg & Hs & _ & Hm).
  exists rec. rewrite Hw. split; [exact Hg|]. split; [exact Hs|].
  apply Hm. reflexivity.
Qed.

(** X12: the main thread never fetches, embeds or touches the vector
    store: all it calls is the logger and the "failed" status write. *)
Theorem X12_main_thread_only_logs_and_marks_failed self job_id url sch w :
  Forall (fun ev => ev_thread ev = Main ->
                    is_stage (ev_cmd ev) = false /\
                    ((exists m x, ev_cmd ev = logger_info m x) \/
                     (exists m x, ev_cmd ev = logger_error m x) \/
                     (exists id f, ev_cmd ev = update_job_status_sync id "failed" f)))
         (trace (run_of self job_id url sch w)).
Proof.
  apply Forall_forall. intros ev Hin Ht.
  apply in_view in Hin. rewrite Ht in Hin.
  pose proof (run_main_calls C env self job_id url sch w) as Hm.
  eapply Forall_forall in Hm; [|exact Hin].
  split; [apply main_call_not_stage, Hm | exact Hm].
Qed.
End MoreClaims.

(** ** The further properties on explicit runs *)

Definition lab_event0 : event Lab.world := mk_event Main utcnow (Val VNone) Lab.start.

Definition lab_db_fault : Lab.faults := Lab.mk_faults true false false.

Lemma X1_witness :
  all_of Main
         (skipn 5 (trace (lab_run lab_db_fault 0 Lab.good_id "alpha beta gamma" InTime))) /\
  worker_end (lab_run lab_db_fault 0 Lab.good_id "alpha beta gamma" InTime)
    = Exc Lab.db_down.
Proof.
  apply (X1_worker_stops_at_first_raise (Lab.collab lab_db_fault) Lab.env
           (Lab.attempt 0) Lab.good_id "alpha beta gamma" InTime Lab.start
           (firstn 4 (trace (lab_run lab_db_fault 0 Lab.good_id "alpha beta gamma" InTime)))
           (nth 4 (trace (lab_run lab_db_fault 0 Lab.good_id "alpha beta gamma" InTime))
                lab_event0)).
  - vm_compute. reflexivity.
  - vm_compute. reflexivity.
  - vm_compute. reflexivity.
Defined.

Lemma X2_witness :
  exists e',
    In e' (firstn 17 (trace (lab_run Lab.no_faults 0 Lab.good_id "alpha beta gamma" InTime))) /\
    ev_thread e' = Worker /\
    stage_rank (ev_cmd e') = Some 4%nat /\ returned e'.
Proof.
  apply (X2_stage_needs_earlier_stages (Lab.collab Lab.no_faults) Lab.env
           (Lab.attempt 0) Lab.good_id "alpha beta gamma" InTime Lab.start
           (firstn 17 (trace (lab_run Lab.no_faults 0 Lab.good_id "alpha beta gamma" InTime)))
           (nth 17 (trace (lab_run Lab.no_faults 0 Lab.good_id "alpha beta gamma" InTime))
                lab_event0)
           (skipn 18 (trace (lab_run Lab.no_faults 0 Lab.good_id "alpha beta gamma" InTime)))
           9%nat 4%nat).
  - vm_compute. reflexivity.
  - vm_compute. reflexivity.
  - lia.
  - discriminate.
Defined.

Lemma X3_witness : (2 < 9)%nat \/ (2%nat = 6%nat /\ 9%nat = 6%nat).
Proof.
  apply (X3_stages_in_order_once (Lab.collab Lab.no_faults) Lab.env
           (Lab.attempt 0) Lab.good_id "alpha beta gamma" InTime Lab.start
           (firstn 6 (trace (lab_run Lab.no_faults 0 Lab.good_id "alpha beta gamma" InTime)))
           (nth 6 (trace (lab_run Lab.no_faults 0 Lab.good_id "alpha beta gamma" InTime))
                lab_event0)
           (firstn 10 (skipn 7 (trace (lab_run Lab.no_faults 0 Lab.good_id
                                         "alpha beta gamma" InTime))))
           (nth 17 (trace (lab_run Lab.no_faults 0 Lab.good_id "alpha beta gamma" InTime))
                lab_event0)
           (skipn 18 (trace (lab_run Lab.no_faults 0 Lab.good_id "alpha beta gamma" InTime)))).
  - vm_compute. reflexivity.
  - vm_compute. reflexivity.
  - vm_compute. reflexivity.
Defined.

Lemma X4_witness :
  fed_by Lab.env Worker Lab.good_id "alpha beta gamma"
    (trace (lab_run Lab.no_faults 0 Lab.good_id "alpha beta gamma" InTime))
    (nth 17 (trace (lab_run Lab.no_faults 0 Lab.good_id "alpha beta gamma" InTime))
         lab_event0).
Proof.
  apply (X4_each_stage_fed_by_the_previous (Lab.collab Lab.no_faults) Lab.env
           (Lab.attempt 0) Lab.good_id "alpha beta gamma" InTime Lab.start).
  apply nth_In. apply Nat.ltb_lt. vm_compute. reflexivity.
Defined.

Lemma X5_witness :
  embed_calls (trace (lab_run Lab.no_faults 0 Lab.good_id "" InTime)) = [] /\
  exists added,
    gave Worker (add_documents [] [] [("source_url", "")] Lab.good_id) (VInt added)
         (trace (lab_run Lab.no_faults 0 Lab.good_id "" InTime)) /\
    worker_end (lab_run Lab.no_faults 0 Lab.good_id "" InTime)
      = Val (mk_result Lab.good_id "completed" added).
Proof.
  destruct (X5_no_chunks_no_embedding (Lab.collab Lab.no_faults) Lab.env
              (Lab.attempt 0) Lab.good_id "" InTime Lab.start
              (nth 10 (trace (lab_run Lab.no_faults 0 Lab.good_id "" InTime)) lab_event0)
              "" 1000 200) as [Hcalls Hup].
  - apply nth_In. apply Nat.ltb_lt. vm_compute. reflexivity.
  - vm_compute. reflexivity.
  - vm_compute. reflexivity.
  - split; [exact Hcalls|]. apply Hup.
    apply all_returned. vm_compute. reflexivity.
Defined.

Lemma X6_witness :
  nth 2 (map fst (embed_calls
           (trace (lab_run Lab.no_faults 0 Lab.good_id (page 250) InTime)))) []
    = slice (repeat "w" 250) 200 300 /\
  List.length (nth 2 (map fst (embed_calls
                 (trace (lab_run Lab.no_faults 0 Lab.good_id (page 250) InTime)))) [])
    = Nat.min 100 (250 - 200).
Proof.
  apply (X6_batch_k_is_slice_at_100k (Lab.collab Lab.no_faults) Lab.env
           (Lab.attempt 0) Lab.good_id (page 250) InTime Lab.start
           (nth 19 (trace (lab_run Lab.no_faults 0 Lab.good_id (page 250) InTime))
                lab_event0)
           (repeat "w" 250) (repeat [PrimFloat.one] 250)
           [("source_url", page 250)] Lab.good_id 2%nat).
  - apply nth_In. apply Nat.ltb_lt. vm_compute. reflexivity.
  - vm_compute. reflexivity.
  - apply Nat.ltb_lt. vm_compute. reflexivity.
Defined.

Lemma X7_witness :
  outcome (process_url_ingestion (Lab.collab Lab.no_faults) Lab.env (mk_task None 3)
             "not-a-uuid" "alpha" InTime Lab.start)
  = RetryScheduled (ValueError "badly formed hexadecimal UUID string") 60.
Proof.
  refine (proj1 (X7_missing_counter_is_attempt_zero (Lab.collab Lab.no_faults) Lab.env
            (mk_task None 3) "not-a-uuid" "alpha" InTime Lab.start
            (ValueError "badly formed hexadecimal UUID string") _ _) _).
  - left. reflexivity.
  - vm_compute. reflexivity.
  - apply Nat.ltb_lt. vm_compute. reflexivity.
Defined.

Lemma X8_witness :
  exists d,
    outcome (lab_run Lab.no_faults 1 "not-a-uuid" "alpha" InTime)
      = RetryScheduled (ValueError "badly formed hexadecimal UUID string") d /\
    outcome (lab_run Lab.no_faults 2 "not-a-uuid" "alpha" InTime)
      = RetryScheduled (ValueError "badly formed hexadecimal UUID string") (2 * d) /\
    60 <= d.
Proof.
  apply (X8_backoff_doubles (Lab.collab Lab.no_faults) Lab.env
           (Lab.attempt 1) (Lab.attempt 2) "not-a-uuid" "alpha"
           InTime Lab.start InTime Lab.start).
  - vm_compute. reflexivity.
  - vm_compute. reflexivity.
  - reflexivity.
  - apply Nat.ltb_lt. vm_compute. reflexivity.
  - apply Nat.ltb_lt. vm_compute. reflexivity.
Defined.

Lemma X10_witness :
  map ev_cmd (filter (fun ev => is_status_write (ev_cmd ev))
                (view Main (trace (lab_run lab_db_fault 0 Lab.good_id
                                     "alpha beta gamma" InTime))))
  = [update_job_status_sync lab_id "failed"
       (mk_fields None None None (Some "database is unavailable")
          (Some (format_exc Lab.env Lab.db_down)))].
Proof.
  apply (X10_handler_writes_failed_once (Lab.collab lab_db_fault) Lab.env
           (Lab.attempt 0) Lab.good_id "alpha beta gamma" InTime Lab.start
           Lab.db_down lab_id).
  - vm_compute. reflexivity.
  - vm_compute. reflexivity.
Defined.

Lemma X11_witness :
  exists rec,
    Lab.lookup lab_id
      (Lab.jobs (world (lab_run lab_db_fault 0 Lab.good_id "alpha beta gamma" InTime)))
      = Some rec /\
    job_status rec = "failed" /\
    job_error_message rec = Some "database is unavailable".
Proof.
  apply (X11_failed_attempt_reads_back_failed (Lab.collab lab_db_fault) Lab.env
           (Lab.attempt 0) Lab.good_id "alpha beta gamma" InTime Lab.start
           Lab.db_down lab_id).
  - vm_compute. reflexivity.
  - vm_compute. reflexivity.
  - apply lab_persists.
  - intros ev Hin Ht.
    assert (Hb : forallb (fun e => match ev_thread e with
                                   | Main => resp_ok e
                                   | Worker => true
                                   end)
                   (trace (lab_run lab_db_fault 0 Lab.good_id "alpha beta gamma" InTime))
                 = true) by (vm_compute; reflexivity).
    rewrite forallb_forall in Hb. specialize (Hb ev Hin). rewrite Ht in Hb.
    unfold resp_ok in Hb. unfold returned.
    destruct (ev_resp ev) as [v|e]; [exists v; reflexivity | discriminate].
Defined.
